(** * prim-interpreter: the evaluator of [src/prim/eval.py]

    A shallow embedding of the tree-walking evaluator: the host numbers
    (Python [int] and [float]), the builtin registry, the frame chain, the
    value model and the recursive evaluation functions, followed by the
    properties of the evaluator. *)

From Stdlib Require Import ZArith String List Bool Lia.
From Stdlib Require PrimFloat SpecFloat FloatOps.
From stdpp Require Import base option list strings gmap fin_maps.

#[local] Set Warnings "-register-all".
Local Open Scope Z_scope.

(** ** The abstract syntax tree *)

(** Modelled from the spec: [prim/ast.py] is not part of the sources; the
    seven node variants and their fields are the ones [eval.py] imports and
    reads ([value], [params], [body], [conditions], [consequents],
    [alternative], [operator], [args]). [_eval_expr]'s last branch, for a node
    outside these seven variants, has no counterpart in a closed type. *)
Inductive Expr : Type :=
| IntLiteral (value : Z)
| FloatLiteral (value : PrimFloat.float)
| SymbolLiteral (value : string)
| StringLiteral (value : string)
| LambdaExpr (params : list string) (body : Expr)
| IfExpr (conditions consequents : list Expr) (alternative : Expr)
| CallExpr (operator : Expr) (args : list Expr).

(** Modelled from the spec: [prim/keyword.py] is not part of the sources; the
    evaluator only reads [Keyword.TRUE.value] and [Keyword.FALSE.value], the
    spellings of the two boolean literals. *)
Module Keyword.
Definition TRUE : string := "true".
Definition FALSE : string := "false".
End Keyword.

(** ** Host arithmetic

    The builtins are Python lambdas over [int] and [float]. An [int] is an
    unbounded integer, a [float] an IEEE 754 binary64 number. The host raises
    [ZeroDivisionError] and [OverflowError] (both subclasses of
    [ArithmeticError]) from [/] and from the conversion of an [int] that is
    out of the range of [float]. The operators below are those of the host
    language on these two types: exact on two [int]s, except [/], which
    rounds the exact quotient; on a pair with a [float], IEEE 754 arithmetic
    after the conversion of the [int] operand; comparisons by exact value. *)
Module Host.

Inductive ArithmeticError : Type := ZeroDivisionError | OverflowError.

Inductive Native (A : Type) : Type :=
| Done (a : A)
| Threw (e : ArithmeticError).
Arguments Done {A} a.
Arguments Threw {A} e.

Definition and_then {A B} (m : Native A) (k : A -> Native B) : Native B :=
  match m with
  | Done a => k a
  | Threw e => Threw e
  end.

Inductive Number : Type :=
| NInt (z : Z)
| NFloat (f : PrimFloat.float).

(** A result that rounds to an infinity is reported as [OverflowError]. *)
Definition finite_or_overflow (f : PrimFloat.float) : Native PrimFloat.float :=
  if PrimFloat.is_infinity f then Threw OverflowError else Done f.

(** [float(z)]: the nearest binary64 number, ties to even. *)
Definition float_of_int (z : Z) : Native PrimFloat.float :=
  finite_or_overflow
    (FloatOps.SF2Prim
       (SpecFloat.binary_normalize FloatOps.prec FloatOps.emax z 0 false)).

Definition exact (z : Z) : SpecFloat.spec_float :=
  match z with
  | Z0 => SpecFloat.S754_zero false
  | Zpos p => SpecFloat.S754_finite false p 0
  | Zneg p => SpecFloat.S754_finite true p 0
  end.

(** [a / b] on two [int]s: the correctly rounded quotient. *)
Definition int_truediv (a b : Z) : Native PrimFloat.float :=
  if b =? 0 then Threw ZeroDivisionError
  else finite_or_overflow
         (FloatOps.SF2Prim
            (SpecFloat.SFdiv FloatOps.prec FloatOps.emax (exact a) (exact b))).

(** [a / b] on two [float]s. *)
Definition float_truediv (a b : PrimFloat.float) : Native PrimFloat.float :=
  if PrimFloat.eqb b PrimFloat.zero then Threw ZeroDivisionError
  else Done (PrimFloat.div a b).

Definition to_float (a : Number) : Native PrimFloat.float :=
  match a with
  | NInt z => float_of_int z
  | NFloat f => Done f
  end.

(** An operator on a pair with at least one [float]: the [int] operand, if
    any, is converted first. *)
Definition promoted (op : PrimFloat.float -> PrimFloat.float -> Native PrimFloat.float)
    (a b : Number) : Native Number :=
  and_then (to_float a) (fun x =>
  and_then (to_float b) (fun y =>
  and_then (op x y) (fun r => Done (NFloat r)))).

Definition add (a b : Number) : Native Number :=
  match a, b with
  | NInt x, NInt y => Done (NInt (x + y))
  | _, _ => promoted (fun x y => Done (PrimFloat.add x y)) a b
  end.

Definition sub (a b : Number) : Native Number :=
  match a, b with
  | NInt x, NInt y => Done (NInt (x - y))
  | _, _ => promoted (fun x y => Done (PrimFloat.sub x y)) a b
  end.

Definition mul (a b : Number) : Native Number :=
  match a, b with
  | NInt x, NInt y => Done (NInt (x * y))
  | _, _ => promoted (fun x y => Done (PrimFloat.mul x y)) a b
  end.

Definition truediv (a b : Number) : Native Number :=
  match a, b with
  | NInt x, NInt y => and_then (int_truediv x y) (fun r => Done (NFloat r))
  | _, _ => promoted float_truediv a b
  end.

(** The host compares an [int] with a [float] by their exact values; a NaN
    is unordered. *)
Definition compare_int_float (z : Z) (f : PrimFloat.float) : option comparison :=
  match FloatOps.Prim2SF f with
  | SpecFloat.S754_nan => None
  | SpecFloat.S754_zero _ => Some (z ?= 0)
  | SpecFloat.S754_infinity false => Some Lt
  | SpecFloat.S754_infinity true => Some Gt
  | SpecFloat.S754_finite s m e =>
      let sm := if s then Zneg m else Zpos m in
      if 0 <=? e then Some (z ?= Z.shiftl sm e)
      else Some (Z.shiftl z (- e) ?= sm)
  end.

Definition compare (a b : Number) : option comparison :=
  match a, b with
  | NInt x, NInt y => Some (x ?= y)
  | NInt x, NFloat g => compare_int_float x g
  | NFloat f, NInt y => CompOpp <$> compare_int_float y f
  | NFloat f, NFloat g =>
      if PrimFloat.eqb f g then Some Eq
      else if PrimFloat.ltb f g then Some Lt
      else if PrimFloat.ltb g f then Some Gt
      else None
  end.

Definition eq (a b : Number) : bool :=
  match compare a b with Some Eq => true | _ => false end.
Definition lt (a b : Number) : bool :=
  match compare a b with Some Lt => true | _ => false end.
Definition gt (a b : Number) : bool :=
  match compare a b with Some Gt => true | _ => false end.
Definition le (a b : Number) : bool :=
  match compare a b with Some Lt | Some Eq => true | _ => false end.
Definition ge (a b : Number) : bool :=
  match compare a b with Some Gt | Some Eq => true | _ => false end.

End Host.

(** ** Builtins, frames and values *)

(** The five subclasses of [Builtin], each wrapping its native function. *)
Inductive Builtin : Type :=
| NumberNumberToNumber (fn : Host.Number -> Host.Number -> Host.Native Host.Number)
| NumberNumberToBool (fn : Host.Number -> Host.Number -> bool)
| BoolBoolToBool (fn : bool -> bool -> bool)
| BoolToBool (fn : bool -> bool)
| StringStringToString (fn : string -> string -> string).

Definition BUILTINS : gmap string Builtin :=
  list_to_map
    [ ("+", NumberNumberToNumber Host.add);
      ("-", NumberNumberToNumber Host.sub);
      ("*", NumberNumberToNumber Host.mul);
      ("/", NumberNumberToNumber Host.truediv);
      ("=", NumberNumberToBool Host.eq);
      ("<", NumberNumberToBool Host.lt);
      (">", NumberNumberToBool Host.gt);
      ("<=", NumberNumberToBool Host.le);
      (">=", NumberNumberToBool Host.ge);
      ("and", BoolBoolToBool (fun a b => a && b));
      ("or", BoolBoolToBool (fun a b => a || b));
      ("not", BoolToBool negb);
      ("++", StringStringToString (fun a b => a +:+ b)) ].

(** [Value = Number | bool | str | Builtin | Closure]; a [Closure] holds the
    frame it was created in, a [Frame] maps names to values. *)
Inductive Value : Type :=
| VInt (z : Z)
| VFloat (f : PrimFloat.float)
| VBool (b : bool)
| VStr (s : string)
| VBuiltin (b : Builtin)
| VClosure (c : Closure)
with Closure : Type :=
| mkClosure (params : list string) (body : Expr) (env : Frame)
with Frame : Type :=
| mkFrame (bindings : gmap string Value) (parent : option Frame).

Definition params (c : Closure) : list string :=
  match c with mkClosure ps _ _ => ps end.
Definition body (c : Closure) : Expr :=
  match c with mkClosure _ b _ => b end.
Definition env (c : Closure) : Frame :=
  match c with mkClosure _ _ e => e end.
Definition bindings (f : Frame) : gmap string Value :=
  match f with mkFrame b _ => b end.
Definition parent (f : Frame) : option Frame :=
  match f with mkFrame _ p => p end.

(** [Frame.get] *)
Fixpoint get (self : Frame) (name : string) : option Value :=
  match self with
  | mkFrame bs p =>
      match bs !! name with
      | Some v => Some v
      | None =>
          match p with
          | Some up => get up name
          | None => None
          end
      end
  end.

Definition base_env : Frame := mkFrame (VBuiltin <$> BUILTINS) None.

(** ** Failures and the evaluation monad *)

(** The evaluator raises [RuntimeError] with a formatted message. A message is
    kept as the pieces of its f-string: literal text, and the values that the
    f-string formats. The native functions add the host's arithmetic errors. *)
Inductive Part : Type :=
| Text (s : string)
| Str (v : Value).

Inductive Exception : Type :=
| RuntimeError (message : list Part)
| ArithmeticError (e : Host.ArithmeticError).

(** One call either returns, raises, or runs out of recursion depth. *)
Inductive Outcome (A : Type) : Type :=
| Return (a : A)
| Raise (e : Exception)
| Exhausted.
Arguments Return {A} a.
Arguments Raise {A} e.
Arguments Exhausted {A}.

(** A run pairs the outcome with the nodes that [_eval_expr] was entered on, in
    the order of the calls. The list is an observation of the run: no function
    of the evaluator reads it. *)
Definition Run (A : Type) : Type := (list Expr * Outcome A)%type.

Definition entered {A} (r : Run A) : list Expr := r.1.
Definition outcome {A} (r : Run A) : Outcome A := r.2.

#[global] Instance Run_ret : MRet Run := λ A a, ([], Return a).

#[global] Instance Run_bind : MBind Run := λ A B k m,
  match m.2 with
  | Return a => (m.1 ++ (k a).1, (k a).2)
  | Raise e => (m.1, Raise e)
  | Exhausted => (m.1, Exhausted)
  end.

Definition raise {A} (e : Exception) : Run A := ([], Raise e).

Definition enter {A} (expr : Expr) (r : Run A) : Run A := (expr :: r.1, r.2).

Definition of_native (r : Host.Native Host.Number) : Outcome Value :=
  match r with
  | Host.Done (Host.NInt z) => Return (VInt z)
  | Host.Done (Host.NFloat f) => Return (VFloat f)
  | Host.Threw e => Raise (ArithmeticError e)
  end.

(** ** Dynamic types *)

(** [bool] is a subclass of [int] in the host: [isinstance(True, int)]. *)
Definition isinstance_int (v : Value) : bool :=
  match v with VInt _ | VBool _ => true | _ => false end.
Definition isinstance_float (v : Value) : bool :=
  match v with VFloat _ => true | _ => false end.
Definition isinstance_bool (v : Value) : bool :=
  match v with VBool _ => true | _ => false end.
Definition isinstance_str (v : Value) : bool :=
  match v with VStr _ => true | _ => false end.

(** The number that a native function receives for a value that is an [int]
    or a [float]; [True] and [False] are the integers 1 and 0. *)
Definition as_number (v : Value) : option Host.Number :=
  match v with
  | VInt z => Some (Host.NInt z)
  | VBool b => Some (Host.NInt (Z.b2z b))
  | VFloat f => Some (Host.NFloat f)
  | _ => None
  end.

(** The truth value of [if v:]. Builtins and closures are plain objects, which
    are true. *)
Definition truthy (v : Value) : bool :=
  match v with
  | VInt z => negb (z =? 0)
  | VFloat f => negb (PrimFloat.eqb f PrimFloat.zero)
  | VBool b => b
  | VStr s => negb (String.eqb s "")
  | VBuiltin _ | VClosure _ => true
  end.

(** ** Evaluation *)

(** [env] is a [Frame], never [None], so the first of the two
    "Undefined identifier" sites of the source cannot be reached; a binding
    is never [None] either, so [value is None] is the absence of a binding. *)
Definition _eval_symbol (value : string) (env : Frame) : Run Value :=
  if String.eqb value Keyword.TRUE then mret (VBool true)
  else if String.eqb value Keyword.FALSE then mret (VBool false)
  else
    match get env value with
    | None => raise (RuntimeError [Text ("Undefined identifier: " +:+ value)])
    | Some v => mret v
    end.

(** The source checks [len(args)], then the dynamic types with [isinstance],
    then calls [operator.fn]. After the [isinstance] check of the number
    variants both arguments are numbers, so the last branch of the match on
    [as_number] is never taken. The closing [raise] of the source, for a
    [Builtin] that is none of the five variants, has no counterpart here. *)
Definition _eval_call_builtin (operator : Builtin) (args : list Value) : Outcome Value :=
  match operator with
  | NumberNumberToNumber fn =>
      match args with
      | [a; b] =>
          if (negb (isinstance_int a) && negb (isinstance_float a))
             || (negb (isinstance_int b) && negb (isinstance_float b))
          then Raise (RuntimeError [Text "Expected 2 number arguments"])
          else
            match as_number a, as_number b with
            | Some x, Some y => of_native (fn x y)
            | _, _ => Raise (RuntimeError [Text "Expected 2 number arguments"])
            end
      | _ => Raise (RuntimeError [Text "Expected 2 arguments"])
      end
  | NumberNumberToBool fn =>
      match args with
      | [a; b] =>
          if (negb (isinstance_int a) && negb (isinstance_float a))
             || (negb (isinstance_int b) && negb (isinstance_float b))
          then Raise (RuntimeError [Text "Expected 2 number arguments"])
          else
            match as_number a, as_number b with
            | Some x, Some y => Return (VBool (fn x y))
            | _, _ => Raise (RuntimeError [Text "Expected 2 number arguments"])
            end
      | _ => Raise (RuntimeError [Text "Expected 2 arguments"])
      end
  | BoolBoolToBool fn =>
      match args with
      | [a; b] =>
          match a, b with
          | VBool x, VBool y => Return (VBool (fn x y))
          | _, _ => Raise (RuntimeError [Text "Expected 2 boolean arguments"])
          end
      | _ => Raise (RuntimeError [Text "Expected 2 arguments"])
      end
  | BoolToBool fn =>
      match args with
      | [a] =>
          match a with
          | VBool x => Return (VBool (fn x))
          | _ => Raise (RuntimeError [Text "Expected 2 boolean arguments"])
          end
      | _ => Raise (RuntimeError [Text "Expected 1 arguments"])
      end
  | StringStringToString fn =>
      match args with
      | [a; b] =>
          match a, b with
          | VStr x, VStr y => Return (VStr (fn x y))
          | _, _ => Raise (RuntimeError [Text "Expected 2 string arguments"])
          end
      | _ => Raise (RuntimeError [Text "Expected 2 arguments"])
      end
  end.

(** [{param: arg for param, arg in zip(operator.params, args)}]: the pairs are
    stored in order, a later pair replacing an earlier one with the same key. *)
Definition store (m : gmap string Value) (pa : string * Value) : gmap string Value :=
  <[pa.1 := pa.2]> m.

Definition call_bindings (params : list string) (args : list Value) : gmap string Value :=
  foldl store ∅ (zip params args).

Section recursive_calls.

(** The recursive calls to [_eval_expr]. *)
Variable ev : Expr → Frame → Run Value.

Fixpoint _eval_if_loop (pairs : list (Expr * Expr)) (alternative : Expr)
    (env : Frame) : Run Value :=
  match pairs with
  | [] => ev alternative env
  | (condition, consequent) :: rest =>
      c ← ev condition env;
      if truthy c then ev consequent env
      else _eval_if_loop rest alternative env
  end.

Definition _eval_if (conditions consequents : list Expr) (alternative : Expr)
    (env : Frame) : Run Value :=
  _eval_if_loop (zip conditions consequents) alternative env.

(** [[_eval_expr(arg, env) for arg in expr.args]] *)
Fixpoint eval_args (args : list Expr) (env : Frame) : Run (list Value) :=
  match args with
  | [] => mret []
  | arg :: rest =>
      v ← ev arg env;
      vs ← eval_args rest env;
      mret (v :: vs)
  end.

Definition _eval_call_closure (operator : Closure) (args : list Value) : Run Value :=
  if negb (length args =? length (params operator))%nat
  then raise (RuntimeError [Text "Argument count mismatch"])
  else
    let bindings := call_bindings (params operator) args in
    let child_env := mkFrame bindings (Some (env operator)) in
    ev (body operator) child_env.

Definition _eval_call (operator : Expr) (args : list Expr) (env : Frame) : Run Value :=
  operator ← ev operator env;
  args ← eval_args args env;
  match operator with
  | VBuiltin b => ([], _eval_call_builtin b args)
  | VClosure c => _eval_call_closure c args
  | _ => raise (RuntimeError [Text "Unsupported operator: "; Str operator])
  end.

End recursive_calls.

(** [fuel] bounds the depth of the recursion: the source recurses on the host
    stack, and a program of the language need not terminate. Each entry of
    [_eval_expr] is recorded by [enter]. The [StringLiteral] case is
    [str(expr.value)] on a string. *)
Fixpoint _eval_expr (fuel : nat) (expr : Expr) (env : Frame) : Run Value :=
  match fuel with
  | O => ([], Exhausted)
  | S fuel =>
      enter expr
        match expr with
        | IntLiteral value => mret (VInt value)
        | FloatLiteral value => mret (VFloat value)
        | SymbolLiteral value => _eval_symbol value env
        | StringLiteral value => mret (VStr value)
        | LambdaExpr params body => mret (VClosure (mkClosure params body env))
        | IfExpr conditions consequents alternative =>
            _eval_if (_eval_expr fuel) conditions consequents alternative env
        | CallExpr operator args =>
            _eval_call (_eval_expr fuel) operator args env
        end
  end.

Definition eval (fuel : nat) (expr : Expr) : Run Value :=
  _eval_expr fuel expr base_env.

(** ** The failures of the specification

    The specification names the failures [UndefinedIdentifier], [NotCallable],
    [ArityMismatch] and [TypeMismatch]; the evaluator raises [RuntimeError]
    with a message. [classify] reads the failure off the message. *)
Inductive Failure : Type :=
| UndefinedIdentifier
| NotCallable
| ArityMismatch
| TypeMismatch.

(** [strip_prefix p s] is the rest of [s] after its prefix [p]. *)
Fixpoint strip_prefix (p s : string) : option string :=
  match p with
  | EmptyString => Some s
  | String a p' =>
      match s with
      | String b s' => if Ascii.eqb a b then strip_prefix p' s' else None
      | EmptyString => None
      end
  end.

Definition arity_messages : list string :=
  ["Expected 2 arguments"; "Expected 1 arguments"; "Argument count mismatch"].

Definition type_messages : list string :=
  ["Expected 2 number arguments"; "Expected 2 boolean arguments";
   "Expected 2 string arguments"].

Definition classify (e : Exception) : option Failure :=
  match e with
  | RuntimeError [Text s] =>
      if existsb (String.eqb s) arity_messages then Some ArityMismatch
      else if existsb (String.eqb s) type_messages then Some TypeMismatch
      else
        match strip_prefix "Undefined identifier: " s with
        | Some _ => Some UndefinedIdentifier
        | None => None
        end
  | RuntimeError [Text s; Str _] =>
      if String.eqb s "Unsupported operator: " then Some NotCallable else None
  | _ => None
  end.

Definition fails_with (k : Failure) (o : Outcome Value) : Prop :=
  ∃ e, o = Raise e ∧ classify e = Some k.

(** What a caller can read back from a failure. *)
Definition offending_name (e : Exception) : option string :=
  match e with
  | RuntimeError [Text s] => strip_prefix "Undefined identifier: " s
  | _ => None
  end.

Definition offending_value (e : Exception) : option Value :=
  match e with
  | RuntimeError [Text _; Str v] => Some v
  | _ => None
  end.

Definition expected_count (e : Exception) : option nat :=
  match e with
  | RuntimeError [Text s] =>
      if String.eqb s "Expected 2 arguments" then Some 2%nat
      else if String.eqb s "Expected 1 arguments" then Some 1%nat
      else None
  | _ => None
  end.

Inductive Kind : Type := KNumber | KBoolean | KString.

Definition expected_kind (e : Exception) : option Kind :=
  match e with
  | RuntimeError [Text s] =>
      if String.eqb s "Expected 2 number arguments" then Some KNumber
      else if String.eqb s "Expected 2 boolean arguments" then Some KBoolean
      else if String.eqb s "Expected 2 string arguments" then Some KString
      else None
  | _ => None
  end.

(** The signature that each variant of [Builtin] checks. *)
Definition arity (op : Builtin) : nat :=
  match op with
  | BoolToBool _ => 1
  | _ => 2
  end.

Definition kind (op : Builtin) : Kind :=
  match op with
  | NumberNumberToNumber _ | NumberNumberToBool _ => KNumber
  | BoolBoolToBool _ | BoolToBool _ => KBoolean
  | StringStringToString _ => KString
  end.

Definition accepts (op : Builtin) (v : Value) : bool :=
  match kind op with
  | KNumber => isinstance_int v || isinstance_float v
  | KBoolean => isinstance_bool v
  | KString => isinstance_str v
  end.

(** The names of the arithmetic builtins, and of all the builtins on numbers. *)
Definition arithmetic_names : list string := ["+"; "-"; "*"; "/"].

Definition number_names : list string :=
  ["+"; "-"; "*"; "/"; "="; "<"; ">"; "<="; ">="].

(** The frames of a chain, innermost first. *)
Fixpoint chain (f : Frame) : list (gmap string Value) :=
  match f with
  | mkFrame bs p => bs :: match p with Some up => chain up | None => [] end
  end.

(** Runs that return a value that is true, or that is false, in an [if]. *)
Definition returns_truthy (r : Run Value) : bool :=
  match r.2 with Return v => truthy v | _ => false end.
Definition returns_falsy (r : Run Value) : bool :=
  match r.2 with Return v => negb (truthy v) | _ => false end.
Definition returns {A} (r : Run A) : bool :=
  match r.2 with Return _ => true | _ => false end.

(** The nodes entered while a list of expressions is evaluated in order. *)
Definition entered_all (ev : Expr → Frame → Run Value) (es : list Expr) (env : Frame) : list Expr :=
  flat_map (λ e, entered (ev e env)) es.

(** ** A recursive program

    The language has no recursive definitions; a function recurses by taking
    itself as an argument. [factorial] is
    [(lambda (self n) (if (= n 0) 1 ( * n (self self (- n 1)))))] and
    [factorial_of n] the call [(factorial factorial n)]. *)
Definition factorial_body : Expr :=
  IfExpr
    [CallExpr (SymbolLiteral "=") [SymbolLiteral "n"; IntLiteral 0]]
    [IntLiteral 1]
    (CallExpr (SymbolLiteral "*")
       [SymbolLiteral "n";
        CallExpr (SymbolLiteral "self")
          [SymbolLiteral "self";
           CallExpr (SymbolLiteral "-") [SymbolLiteral "n"; IntLiteral 1]]]).

Definition factorial : Expr := LambdaExpr ["self"; "n"] factorial_body.

Definition factorial_of (n : Z) : Expr :=
  CallExpr factorial [factorial; IntLiteral n].

(** The factorial of a natural number. *)
Fixpoint factorial_value (n : nat) : Z :=
  match n with
  | O => 1
  | S k => Z.of_nat (S k) * factorial_value k
  end.

(** The closure that [factorial] evaluates to in the base environment, and the
    frame of its call on itself and an integer. *)
Definition factorial_closure : Closure :=
  mkClosure ["self"; "n"] factorial_body base_env.

Definition factorial_frame (n : Z) : Frame :=
  mkFrame (call_bindings ["self"; "n"] [VClosure factorial_closure; VInt n])
    (Some base_env).

(** The names of the registry, in the order of the source. *)
Definition builtin_names : list string :=
  ["+"; "-"; "*"; "/"; "="; "<"; ">"; "<="; ">="; "and"; "or"; "not"; "++"].

(** The values that an [if] takes for false. *)
Definition falsy (v : Value) : Prop :=
  v = VInt 0 ∨ v = VBool false ∨ v = VStr ""
  ∨ ∃ f, v = VFloat f ∧ PrimFloat.eqb f PrimFloat.zero = true.

(** ** Frames above the base environment

    The source builds a frame in two places only: [base_env], and the frame of
    a closure call, whose parent is the frame of the closure. A frame is
    rooted when it is built in this way from values that hold rooted frames
    only. *)
Inductive rooted_value : Value → Prop :=
| rooted_int z : rooted_value (VInt z)
| rooted_float f : rooted_value (VFloat f)
| rooted_bool b : rooted_value (VBool b)
| rooted_str s : rooted_value (VStr s)
| rooted_builtin b : rooted_value (VBuiltin b)
| rooted_closure ps b f : rooted_frame f → rooted_value (VClosure (mkClosure ps b f))
with rooted_frame : Frame → Prop :=
| rooted_base : rooted_frame base_env
| rooted_call bs up :
    (∀ name v, bs !! name = Some v → rooted_value v) →
    rooted_frame up →
    rooted_frame (mkFrame bs (Some up)).

(** The failures that an evaluation can end with: those that [classify]
    names, and the arithmetic errors of the host. *)
Definition known_failure (e : Exception) : Prop :=
  is_Some (classify e) ∨ ∃ a, e = ArithmeticError a.

(** * Properties *)

(** ** The registry *)

Lemma lookup_add : BUILTINS !! "+" = Some (NumberNumberToNumber Host.add).
Proof. reflexivity. Qed.
Lemma lookup_sub : BUILTINS !! "-" = Some (NumberNumberToNumber Host.sub).
Proof. reflexivity. Qed.
Lemma lookup_mul : BUILTINS !! "*" = Some (NumberNumberToNumber Host.mul).
Proof. reflexivity. Qed.
Lemma lookup_truediv : BUILTINS !! "/" = Some (NumberNumberToNumber Host.truediv).
Proof. reflexivity. Qed.
Lemma lookup_eq : BUILTINS !! "=" = Some (NumberNumberToBool Host.eq).
Proof. reflexivity. Qed.
Lemma lookup_lt : BUILTINS !! "<" = Some (NumberNumberToBool Host.lt).
Proof. reflexivity. Qed.
Lemma lookup_gt : BUILTINS !! ">" = Some (NumberNumberToBool Host.gt).
Proof. reflexivity. Qed.
Lemma lookup_le : BUILTINS !! "<=" = Some (NumberNumberToBool Host.le).
Proof. reflexivity. Qed.
Lemma lookup_ge : BUILTINS !! ">=" = Some (NumberNumberToBool Host.ge).
Proof. reflexivity. Qed.

Lemma base_env_get (name : string) :
  get base_env name = VBuiltin <$> BUILTINS !! name.
Proof.
  unfold base_env; cbn [get]. rewrite lookup_fmap.
  by destruct (BUILTINS !! name).
Qed.

(** ** Builtin calls *)

Lemma as_number_accepts (v : Value) :
  is_Some (as_number v) ↔ isinstance_int v || isinstance_float v = true.
Proof.
  destruct v; cbn; split; intros H; eauto; try discriminate; by destruct H.
Qed.

Lemma number_check (a : Value) :
  negb (isinstance_int a) && negb (isinstance_float a) = false ↔ is_Some (as_number a).
Proof.
  destruct a; cbn; split; intros H; eauto; try discriminate; by destruct H.
Qed.

Lemma builtin_arity_mismatch (op : Builtin) :
  ∃ e, classify e = Some ArityMismatch
       ∧ expected_count e = Some (arity op)
       ∧ ∀ args, length args ≠ arity op → _eval_call_builtin op args = Raise e.
Proof.
  destruct op; eexists; (split; [|split]);
    try (intros [|a [|b [|c rest]]] Hlen; cbn in Hlen; try congruence; reflexivity);
    reflexivity.
Qed.

Lemma builtin_type_mismatch (op : Builtin) :
  ∃ e, classify e = Some TypeMismatch
       ∧ expected_kind e = Some (kind op)
       ∧ ∀ args, length args = arity op →
                 Exists (λ v, accepts op v = false) args →
                 _eval_call_builtin op args = Raise e.
Proof.
  destruct op; eexists; (split; [|split]);
    try (intros [|a [|b [|c rest]]] Hlen Hbad; cbn in Hlen; try congruence;
         rewrite ?Exists_cons, Exists_nil in Hbad;
         unfold accepts in Hbad; cbn [kind] in Hbad;
         destruct a; try destruct b; cbn in Hbad |- *;
         try reflexivity; exfalso; intuition discriminate);
    reflexivity.
Qed.

Lemma builtin_number_call (fn : Host.Number → Host.Number → Host.Native Host.Number)
    (a b : Value) (x y : Host.Number) :
  as_number a = Some x → as_number b = Some y →
  _eval_call_builtin (NumberNumberToNumber fn) [a; b] = of_native (fn x y).
Proof.
  intros Ha Hb. cbn [_eval_call_builtin].
  assert (Hca : negb (isinstance_int a) && negb (isinstance_float a) = false)
    by (apply number_check; eauto).
  assert (Hcb : negb (isinstance_int b) && negb (isinstance_float b) = false)
    by (apply number_check; eauto).
  by rewrite Hca, Hcb, Ha, Hb.
Qed.

Lemma builtin_compare_call (fn : Host.Number → Host.Number → bool)
    (a b : Value) (x y : Host.Number) :
  as_number a = Some x → as_number b = Some y →
  _eval_call_builtin (NumberNumberToBool fn) [a; b] = Return (VBool (fn x y)).
Proof.
  intros Ha Hb. cbn [_eval_call_builtin].
  assert (Hca : negb (isinstance_int a) && negb (isinstance_float a) = false)
    by (apply number_check; eauto).
  assert (Hcb : negb (isinstance_int b) && negb (isinstance_float b) = false)
    by (apply number_check; eauto).
  by rewrite Hca, Hcb, Ha, Hb.
Qed.

(** C3. A builtin call with an argument count other than the variant's arity
    (2, or 1 for the unary boolean variant) fails with [ArityMismatch]. With
    the right count, an argument that the variant does not accept makes the
    call fail with [TypeMismatch]: the number variants accept what the host
    calls an [int] or a [float], the boolean variants a [bool], the string
    variant a [str]. Accepted arguments are handed to the wrapped native
    function, whose result is the result of the call. [+] on [(1, "a")] fails
    with [TypeMismatch], [not] on [(true, false)] with [ArityMismatch]. *)
Theorem builtin_call_checks :
  (∀ op args, length args ≠ arity op →
     fails_with ArityMismatch (_eval_call_builtin op args))
  ∧ (∀ op args, length args = arity op →
       Exists (λ v, accepts op v = false) args →
       fails_with TypeMismatch (_eval_call_builtin op args))
  ∧ (∀ fn a b, accepts (NumberNumberToNumber fn) a = true →
       accepts (NumberNumberToNumber fn) b = true →
       ∃ x y, as_number a = Some x ∧ as_number b = Some y
              ∧ _eval_call_builtin (NumberNumberToNumber fn) [a; b] = of_native (fn x y))
  ∧ (∀ fn a b, accepts (NumberNumberToBool fn) a = true →
       accepts (NumberNumberToBool fn) b = true →
       ∃ x y, as_number a = Some x ∧ as_number b = Some y
              ∧ _eval_call_builtin (NumberNumberToBool fn) [a; b] = Return (VBool (fn x y)))
  ∧ (∀ fn x y,
       _eval_call_builtin (BoolBoolToBool fn) [VBool x; VBool y] = Return (VBool (fn x y)))
  ∧ (∀ fn x, _eval_call_builtin (BoolToBool fn) [VBool x] = Return (VBool (fn x)))
  ∧ (∀ fn x y,
       _eval_call_builtin (StringStringToString fn) [VStr x; VStr y] = Return (VStr (fn x y)))
  ∧ fails_with TypeMismatch
      (outcome (eval 2 (CallExpr (SymbolLiteral "+") [IntLiteral 1; StringLiteral "a"])))
  ∧ fails_with ArityMismatch
      (outcome (eval 2 (CallExpr (SymbolLiteral "not")
                          [SymbolLiteral Keyword.TRUE; SymbolLiteral Keyword.FALSE]))).
Proof.
  split_and!.
  - intros op args Hlen.
    destruct (builtin_arity_mismatch op) as (e & Hk & _ & He).
    exists e. by rewrite He.
  - intros op args Hlen Hbad.
    destruct (builtin_type_mismatch op) as (e & Hk & _ & He).
    exists e. by rewrite He.
  - intros fn a b Ha Hb.
    apply as_number_accepts in Ha as [x Hx], Hb as [y Hy].
    exists x, y. eauto using builtin_number_call.
  - intros fn a b Ha Hb.
    apply as_number_accepts in Ha as [x Hx], Hb as [y Hy].
    exists x, y. eauto using builtin_compare_call.
  - reflexivity.
  - reflexivity.
  - reflexivity.
  - eexists. split; [vm_compute; reflexivity | reflexivity].
  - eexists. split; [vm_compute; reflexivity | reflexivity].
Qed.

(** ** Symbols and the frame chain *)

Lemma strip_prefix_app (p s : string) : strip_prefix p (p +:+ s) = Some s.
Proof.
  induction p as [|a p IH]; simpl; [done|]. by rewrite Ascii.eqb_refl.
Qed.

Lemma classify_undefined (name : string) :
  classify (RuntimeError [Text ("Undefined identifier: " +:+ name)])
  = Some UndefinedIdentifier.
Proof. reflexivity. Qed.

Lemma offending_name_undefined (name : string) :
  offending_name (RuntimeError [Text ("Undefined identifier: " +:+ name)]) = Some name.
Proof. unfold offending_name. apply strip_prefix_app. Qed.

(** Induction along the parents of a frame. *)
Lemma Frame_parent_ind (P : Frame → Prop) :
  (∀ bs, P (mkFrame bs None)) →
  (∀ bs up, P up → P (mkFrame bs (Some up))) →
  ∀ f, P f.
Proof.
  intros Hroot Hstep. fix IH 1. intros [bs [up|]].
  - apply Hstep, IH.
  - apply Hroot.
Qed.

(** [get] returns the binding of the innermost frame that has one. *)
Lemma get_chain (name : string) (f : Frame) :
  get f name = head (omap (λ bs : gmap string Value, bs !! name) (chain f)).
Proof.
  induction f as [bs|bs up IH] using Frame_parent_ind;
    cbn [get chain omap list_omap]; destruct (bs !! name) as [v|];
    auto; reflexivity.
Qed.

Lemma get_None_chain (name : string) (f : Frame) :
  get f name = None
  ↔ Forall (λ bs : gmap string Value, bs !! name = None) (chain f).
Proof.
  induction f as [bs|bs up IH] using Frame_parent_ind;
    cbn [get chain]; rewrite Forall_cons; destruct (bs !! name) as [v|].
  - split; [done | by intros [? _]].
  - split; [by split | done].
  - split; [done | by intros [? _]].
  - rewrite IH. tauto.
Qed.



Lemma eval_symbol_other (name : string) (env : Frame) :
  name ≠ Keyword.TRUE → name ≠ Keyword.FALSE →
  _eval_symbol name env
  = match get env name with
    | None => raise (RuntimeError [Text ("Undefined identifier: " +:+ name)])
    | Some v => mret v
    end.
Proof.
  intros Ht Hf. unfold _eval_symbol.
  apply String.eqb_neq in Ht, Hf. by rewrite Ht, Hf.
Qed.

(** C6. A symbol spelled like the true keyword evaluates to the boolean true
    and one spelled like the false keyword to the boolean false, in every
    environment, so also in one that binds that name. Any other symbol
    evaluates to the binding of the innermost frame of the chain that has
    one, and the evaluation fails with [UndefinedIdentifier], carrying the
    name, exactly when no frame of the chain binds it. *)
Theorem symbol_resolution (fuel : nat) (name : string) (env : Frame) :
  let r := outcome (_eval_expr (S fuel) (SymbolLiteral name) env) in
  (name = Keyword.TRUE → r = Return (VBool true))
  ∧ (name = Keyword.FALSE → r = Return (VBool false))
  ∧ (name ≠ Keyword.TRUE → name ≠ Keyword.FALSE →
       get env name = head (omap (λ bs : gmap string Value, bs !! name) (chain env))
       ∧ (∀ v, get env name = Some v → r = Return v)
       ∧ ((∃ e, r = Raise e)
          ↔ Forall (λ bs : gmap string Value, bs !! name = None) (chain env))
       ∧ (∀ e, r = Raise e →
            classify e = Some UndefinedIdentifier ∧ offending_name e = Some name)).
Proof.
  cbn zeta. cbn [_eval_expr enter outcome snd]. split_and!.
  - intros ->. reflexivity.
  - intros ->. reflexivity.
  - intros Ht Hf. rewrite (eval_symbol_other _ _ Ht Hf).
    rewrite <- get_None_chain. split_and!.
    + apply get_chain.
    + by intros v ->.
    + destruct (get env name); split; try done; [by intros [e ?] | by eexists].
    + intros e. destruct (get env name); cbn; [done|].
      intros [= <-]. split; [apply classify_undefined | apply offending_name_undefined].
Qed.

(** ** Sequencing *)

Lemma bind_Return {A B} (m : Run A) (k : A → Run B) (a : A) :
  outcome m = Return a → m ≫= k = (entered m ++ entered (k a), outcome (k a)).
Proof. unfold mbind, Run_bind, outcome, entered. by intros ->. Qed.

Lemma bind_Raise {A B} (m : Run A) (k : A → Run B) (e : Exception) :
  outcome m = Raise e → m ≫= k = (entered m, Raise e).
Proof. unfold mbind, Run_bind, outcome, entered. by intros ->. Qed.

Lemma returns_truthy_inv (r : Run Value) :
  returns_truthy r = true → ∃ v, outcome r = Return v ∧ truthy v = true.
Proof.
  unfold returns_truthy, outcome. destruct (r.2) as [v| |]; try discriminate. eauto.
Qed.

Lemma returns_falsy_inv (r : Run Value) :
  returns_falsy r = true → ∃ v, outcome r = Return v ∧ truthy v = false.
Proof.
  unfold returns_falsy, outcome. destruct (r.2) as [v| |]; try discriminate.
  intros H%negb_true_iff. eauto.
Qed.

Lemma returns_inv {A} (r : Run A) :
  returns r = true → ∃ a, outcome r = Return a.
Proof. unfold returns, outcome. destruct (r.2); try discriminate. eauto. Qed.

Lemma entered_all_cons ev (e : Expr) (es : list Expr) (env : Frame) :
  entered_all ev (e :: es) env = entered (ev e env) ++ entered_all ev es env.
Proof. reflexivity. Qed.

(** ** Conditionals *)

Section conditionals.

Variable ev : Expr → Frame → Run Value.

Lemma eval_if_select (cs ks : list Expr) (alt : Expr) (env : Frame)
    (i : nat) (c k : Expr) :
  cs !! i = Some c → ks !! i = Some k →
  forallb (λ c', returns_falsy (ev c' env)) (take i cs) = true →
  returns_truthy (ev c env) = true →
  _eval_if ev cs ks alt env
  = (entered_all ev (take (S i) cs) env ++ entered (ev k env), outcome (ev k env)).
Proof.
  unfold _eval_if. revert ks i.
  induction cs as [|c0 cs IH]; intros [|k0 ks] [|i] Hc Hk Hpre Hsel;
    try discriminate; cbn in Hc, Hk.
  - injection Hc as ->; injection Hk as ->.
    apply returns_truthy_inv in Hsel as (v & Hv & Ht).
    cbn [zip zip_with _eval_if_loop]. rewrite (bind_Return _ _ _ Hv), Ht.
    cbn [take entered_all flat_map]. by rewrite app_nil_r.
  - cbn [take forallb] in Hpre. apply andb_true_iff in Hpre as [H0 Hpre].
    apply returns_falsy_inv in H0 as (v & Hv & Hf).
    cbn [zip zip_with _eval_if_loop]. rewrite (bind_Return _ _ _ Hv), Hf.
    unfold entered at 2. cbn [fst snd].
    rewrite (IH ks i Hc Hk Hpre Hsel).
    change (take (S (S i)) (c0 :: cs)) with (c0 :: take (S i) cs).
    rewrite entered_all_cons. cbn [fst snd]. by rewrite <- app_assoc.
Qed.

Lemma eval_if_alternative (cs ks : list Expr) (alt : Expr) (env : Frame) :
  length cs = length ks →
  forallb (λ c', returns_falsy (ev c' env)) cs = true →
  _eval_if ev cs ks alt env
  = (entered_all ev cs env ++ entered (ev alt env), outcome (ev alt env)).
Proof.
  unfold _eval_if. revert ks.
  induction cs as [|c0 cs IH]; intros [|k0 ks] Hlen Hall; try discriminate.
  - cbn. by destruct (ev alt env).
  - cbn [forallb] in Hall. apply andb_true_iff in Hall as [H0 Hall].
    apply returns_falsy_inv in H0 as (v & Hv & Hf).
    cbn [zip zip_with _eval_if_loop]. rewrite (bind_Return _ _ _ Hv), Hf.
    unfold entered at 2. cbn [fst snd].
    rewrite (IH ks) by (auto || (cbn in Hlen; lia)).
    rewrite entered_all_cons. cbn [fst snd]. by rewrite <- app_assoc.
Qed.

End conditionals.



(** C4. In an [if], the conditions are evaluated from left to right up to the
    first one whose value is true; the result is then the evaluation of the
    consequent paired with it, and no later condition and no other consequent
    is entered. When the sequences have the same length and every condition
    is false, every condition is evaluated and the result is the evaluation of
    the alternative. So conditions [[false, false]] with consequents [[A, B]]
    and alternative [C] give [C], and conditions [[false, true]] give [B]. *)
Theorem if_selects_first_truthy :
  (∀ fuel cs ks alt env i c k,
     cs !! i = Some c → ks !! i = Some k →
     forallb (λ c', returns_falsy (_eval_expr fuel c' env)) (take i cs) = true →
     returns_truthy (_eval_expr fuel c env) = true →
     _eval_expr (S fuel) (IfExpr cs ks alt) env
     = (IfExpr cs ks alt
          :: entered_all (_eval_expr fuel) (take (S i) cs) env
             ++ entered (_eval_expr fuel k env),
        outcome (_eval_expr fuel k env)))
  ∧ (∀ fuel cs ks alt env,
       length cs = length ks →
       forallb (λ c', returns_falsy (_eval_expr fuel c' env)) cs = true →
       _eval_expr (S fuel) (IfExpr cs ks alt) env
       = (IfExpr cs ks alt
            :: entered_all (_eval_expr fuel) cs env
               ++ entered (_eval_expr fuel alt env),
          outcome (_eval_expr fuel alt env)))
  ∧ (∀ fuel A B C env,
       let F := SymbolLiteral Keyword.FALSE in
       _eval_expr (S (S fuel)) (IfExpr [F; F] [A; B] C) env
       = (IfExpr [F; F] [A; B] C :: F :: F :: entered (_eval_expr (S fuel) C env),
          outcome (_eval_expr (S fuel) C env)))
  ∧ (∀ fuel A B C env,
       let F := SymbolLiteral Keyword.FALSE in
       let T := SymbolLiteral Keyword.TRUE in
       _eval_expr (S (S fuel)) (IfExpr [F; T] [A; B] C) env
       = (IfExpr [F; T] [A; B] C :: F :: T :: entered (_eval_expr (S fuel) B env),
          outcome (_eval_expr (S fuel) B env))).
Proof.
  split_and!.
  - intros fuel cs ks alt env i c k Hc Hk Hpre Hsel.
    cbn [_eval_expr enter]. by rewrite (eval_if_select _ cs ks alt env i c k).
  - intros fuel cs ks alt env Hlen Hall.
    cbn [_eval_expr enter]. by rewrite (eval_if_alternative _ cs ks alt env).
  - intros fuel A B C env F. cbn [_eval_expr enter].
    by rewrite (eval_if_alternative _ [F; F] [A; B] C env).
  - intros fuel A B C env F T. cbn [_eval_expr enter].
    by rewrite (eval_if_select _ [F; T] [A; B] C env 1 T B).
Qed.

(** ** Calls *)

Section arguments.

Variable ev : Expr → Frame → Run Value.

Lemma eval_args_all (args : list Expr) (vs : list Value) (env : Frame) :
  Forall2 (λ a v, outcome (ev a env) = Return v) args vs →
  eval_args ev args env = (entered_all ev args env, Return vs).
Proof.
  induction 1 as [|a v args vs Ha _ IH]; [reflexivity|].
  cbn [eval_args]. rewrite (bind_Return _ _ _ Ha), IH.
  rewrite entered_all_cons. unfold entered, outcome. cbn.
  by rewrite app_nil_r.
Qed.

Lemma eval_args_stop (args : list Expr) (env : Frame) (i : nat) (a : Expr)
    (e : Exception) :
  args !! i = Some a →
  forallb (λ a', returns (ev a' env)) (take i args) = true →
  outcome (ev a env) = Raise e →
  eval_args ev args env = (entered_all ev (take (S i) args) env, Raise e).
Proof.
  revert i. induction args as [|a0 args IH]; intros [|i] Ha Hpre He;
    try discriminate; cbn in Ha.
  - injection Ha as ->. cbn [eval_args]. rewrite (bind_Raise _ _ _ He).
    cbn [take entered_all flat_map]. by rewrite app_nil_r.
  - cbn [take forallb] in Hpre. apply andb_true_iff in Hpre as [H0 Hpre].
    apply returns_inv in H0 as [v Hv].
    cbn [eval_args]. rewrite (bind_Return _ _ _ Hv), (IH i Ha Hpre He).
    change (take (S (S i)) (a0 :: args)) with (a0 :: take (S i) args).
    by rewrite entered_all_cons.
Qed.

End arguments.



(** ** Call frames *)

Section bindings.

Lemma foldl_store_dom (l : list (string * Value)) (m : gmap string Value) :
  dom (foldl store m l) = list_to_set l.*1 ∪ dom m.
Proof.
  revert m. induction l as [|[k v] l IH]; intros m; cbn [foldl fmap list_fmap].
  - by rewrite list_to_set_nil, (left_id_L ∅ (∪)).
  - rewrite IH. unfold store. cbn [fst snd]. rewrite dom_insert_L, list_to_set_cons.
    by rewrite !(assoc_L (∪)), (comm_L (∪) (list_to_set l.*1) {[k]}).
Qed.

Lemma foldl_store_notin (l : list (string * Value)) (m : gmap string Value)
    (k : string) :
  k ∉ l.*1 → foldl store m l !! k = m !! k.
Proof.
  revert m. induction l as [|[k' v] l IH]; intros m Hk; [done|].
  cbn [fmap list_fmap fst] in Hk. apply not_elem_of_cons in Hk as [Hne Hk].
  cbn [foldl]. rewrite IH by done.
  unfold store. cbn [fst snd]. by apply lookup_insert_ne.
Qed.

Lemma zip_fst_elem_of (ps : list string) (vs : list Value) (k : string) :
  k ∈ (zip ps vs).*1 → k ∈ ps.
Proof.
  intros ([p v] & -> & Hin)%list_elem_of_fmap. by apply elem_of_zip_l in Hin.
Qed.

Lemma foldl_store_lookup (ps : list string) (vs : list Value)
    (m : gmap string Value) (i : nat) (p : string) (v : Value) :
  ps !! i = Some p → vs !! i = Some v → p ∉ drop (S i) ps →
  foldl store m (zip ps vs) !! p = Some v.
Proof.
  revert vs m i.
  induction ps as [|p0 ps IH]; intros [|v0 vs] m [|i] Hp Hv Hlast;
    try discriminate; cbn in Hp, Hv.
  - injection Hp as ->; injection Hv as ->. cbn [zip zip_with foldl].
    rewrite foldl_store_notin.
    + unfold store. cbn [fst snd]. apply lookup_insert_eq.
    + intros Hin%zip_fst_elem_of. by apply Hlast.
  - cbn [zip zip_with foldl]. by apply (IH vs _ i).
Qed.

Lemma call_bindings_dom (ps : list string) (vs : list Value) :
  length vs = length ps → dom (call_bindings ps vs) = list_to_set ps.
Proof.
  intros Hlen. unfold call_bindings.
  rewrite foldl_store_dom, fst_zip by lia.
  by rewrite dom_empty_L, (right_id_L ∅ (∪)).
Qed.

Lemma call_bindings_size (ps : list string) (vs : list Value) :
  length vs = length ps →
  size (call_bindings ps vs) = length (remove_dups ps).
Proof.
  intros Hlen. rewrite <- size_dom, (call_bindings_dom _ _ Hlen).
  rewrite <- (size_list_to_set (C := gset string) (remove_dups ps))
    by apply NoDup_remove_dups.
  f_equal. apply set_eq. intros x.
  by rewrite !elem_of_list_to_set, elem_of_remove_dups.
Qed.

Lemma call_bindings_lookup (ps : list string) (vs : list Value) (i : nat)
    (p : string) (v : Value) :
  ps !! i = Some p → vs !! i = Some v → p ∉ drop (S i) ps →
  call_bindings ps vs !! p = Some v.
Proof. apply foldl_store_lookup. Qed.

Lemma call_bindings_notin (ps : list string) (vs : list Value) (name : string) :
  name ∉ ps → call_bindings ps vs !! name = None.
Proof.
  intros Hname. unfold call_bindings.
  rewrite foldl_store_notin; [apply lookup_empty|].
  intros Hin%zip_fst_elem_of. by apply Hname.
Qed.

End bindings.

Lemma NoDup_not_later (ps : list string) (i : nat) (p : string) :
  NoDup ps → ps !! i = Some p → p ∉ drop (S i) ps.
Proof.
  intros Hnd Hp Hin. apply list_elem_of_lookup in Hin as [j Hj].
  rewrite lookup_drop in Hj.
  pose proof (NoDup_lookup _ _ _ _ Hnd Hp Hj). lia.
Qed.

Lemma eval_call_closure_arity ev (c : Closure) (vs : list Value) :
  length vs ≠ length (params c) →
  _eval_call_closure ev c vs = raise (RuntimeError [Text "Argument count mismatch"]).
Proof.
  intros Hlen. unfold _eval_call_closure.
  by apply Nat.eqb_neq in Hlen as ->.
Qed.

Lemma eval_call_closure_body ev (c : Closure) (vs : list Value) :
  length vs = length (params c) →
  _eval_call_closure ev c vs
  = ev (body c) (mkFrame (call_bindings (params c) vs) (Some (env c))).
Proof.
  intros Hlen. unfold _eval_call_closure.
  by apply Nat.eqb_eq in Hlen as ->.
Qed.


(** C2, as the code has it. When a call binds its arguments, the call frame
    has one binding for each distinct parameter name, and a name is bound to
    the argument at the last index where it occurs. For a parameter list
    without repeated names the frame has exactly as many bindings as
    parameters, each bound to the argument at the same index. *)
Theorem call_frame_bindings (fuel : nat) (c : Closure) (vs : list Value) :
  length vs = length (params c) →
  let frame := mkFrame (call_bindings (params c) vs) (Some (env c)) in
  _eval_call_closure (_eval_expr fuel) c vs = _eval_expr fuel (body c) frame
  ∧ size (bindings frame) = length (remove_dups (params c))
  ∧ (∀ i p v, params c !! i = Some p → vs !! i = Some v →
              p ∉ drop (S i) (params c) → bindings frame !! p = Some v)
  ∧ (NoDup (params c) →
       size (bindings frame) = length (params c)
       ∧ ∀ i p v, params c !! i = Some p → vs !! i = Some v →
                  bindings frame !! p = Some v).
Proof.
  intros Hlen frame. split_and!.
  - apply (eval_call_closure_body _ c vs Hlen).
  - apply (call_bindings_size _ _ Hlen).
  - intros i p v. apply call_bindings_lookup.
  - intros Hnd. split.
    + cbn [bindings frame]. rewrite <- size_dom, (call_bindings_dom _ _ Hlen).
      by apply size_list_to_set.
    + intros i p v Hp Hv. apply (call_bindings_lookup _ _ i); [done..|].
      by apply NoDup_not_later.
Qed.

Lemma call_frame_bindings_witness :
  let c := mkClosure ["x"; "y"] (SymbolLiteral "y") base_env in
  let vs := [VInt 2; VInt 3] in
  length vs = length (params c)
  ∧ size (call_bindings (params c) vs) = 2%nat
  ∧ call_bindings (params c) vs !! "y" = Some (VInt 3).
Proof.
  intros c vs.
  assert (Hlen : length vs = length (params c)) by reflexivity.
  destruct (call_frame_bindings 1 c vs Hlen) as (_ & Hsize & Hlast & _).
  split; [exact Hlen|]. split.
  - exact Hsize.
  - apply (Hlast 1%nat); [reflexivity | reflexivity |].
    cbn. apply not_elem_of_nil.
Defined.

(** C2, as stated, fails for a repeated parameter name: the call of a closure
    with parameters [x, x] on two arguments binds its arguments and runs the
    body in a frame with one binding, which holds the second argument. *)
Lemma repeated_parameter_frame :
  let c := mkClosure ["x"; "x"] (LambdaExpr [] (SymbolLiteral "x")) base_env in
  ∃ frame,
    outcome (_eval_call_closure (_eval_expr 1) c [VInt 1; VInt 2])
    = Return (VClosure (mkClosure [] (SymbolLiteral "x") frame))
    ∧ length (params c) = 2%nat
    ∧ size (bindings frame) = 1%nat
    ∧ bindings frame !! "x" = Some (VInt 2).
Proof.
  intros c. eexists. split; [reflexivity|].
  split; [reflexivity|]. split; vm_compute; reflexivity.
Qed.

(** C7. Evaluating [(lambda (x) x)] gives a closure, and calling that closure
    on one argument [v] returns [v], whatever kind of value [v] is; so the
    call expression that applies the lambda to an argument with value [v]
    evaluates to [v]. *)
Theorem identity_closure_law (fuel : nat) (env0 : Frame) (v : Value) :
  let identity := LambdaExpr ["x"] (SymbolLiteral "x") in
  ∃ c,
    outcome (_eval_expr (S fuel) identity env0) = Return (VClosure c)
    ∧ outcome (_eval_call_closure (_eval_expr (S fuel)) c [v]) = Return v
    ∧ ∀ a, outcome (_eval_expr (S fuel) a env0) = Return v →
           outcome (_eval_expr (S (S fuel)) (CallExpr identity [a]) env0) = Return v.
Proof.
  intros identity.
  assert (Hcall : ∀ n, outcome (_eval_call_closure (_eval_expr (S n))
                                  (mkClosure ["x"] (SymbolLiteral "x") env0) [v])
                       = Return v).
  { intros n. rewrite eval_call_closure_body by reflexivity.
    cbn [body params env _eval_expr enter outcome snd].
    rewrite eval_symbol_other by done. cbn [get].
    rewrite (call_bindings_lookup ["x"] [v] 0 "x" v); try reflexivity.
    cbn. apply not_elem_of_nil. }
  exists (mkClosure ["x"] (SymbolLiteral "x") env0). split_and!.
  - reflexivity.
  - apply Hcall.
  - intros a Ha. cbn [_eval_expr enter outcome snd]. unfold _eval_call.
    rewrite (bind_Return _ _ (VClosure (mkClosure ["x"] (SymbolLiteral "x") env0)))
      by reflexivity.
    rewrite (eval_args_all _ [a] [v] env0) by (repeat constructor; exact Ha).
    unfold mbind, Run_bind, outcome in *. cbn [fst snd]. apply Hcall.
Qed.

(** ** What a failure carries *)

Lemma eval_symbol_failure (fuel : nat) (name : string) (env0 : Frame) (e : Exception) :
  outcome (_eval_expr (S fuel) (SymbolLiteral name) env0) = Raise e →
  classify e = Some UndefinedIdentifier ∧ offending_name e = Some name.
Proof.
  cbn [_eval_expr enter outcome snd]. unfold _eval_symbol.
  destruct (String.eqb name Keyword.TRUE); [discriminate|].
  destruct (String.eqb name Keyword.FALSE); [discriminate|].
  destruct (get env0 name); [discriminate|].
  intros [= <-]. split; [apply classify_undefined | apply offending_name_undefined].
Qed.



(** ** Arithmetic *)

Section arithmetic.

Import PrimFloat.

Lemma int_truediv_zero (a : Z) :
  Host.int_truediv a 0 = Host.Threw Host.ZeroDivisionError.
Proof. reflexivity. Qed.

Lemma int_truediv_nonzero (a b : Z) :
  b ≠ 0 →
  (∃ f, Host.int_truediv a b = Host.Done f)
  ∨ Host.int_truediv a b = Host.Threw Host.OverflowError.
Proof.
  intros Hb. unfold Host.int_truediv, Host.finite_or_overflow.
  apply Z.eqb_neq in Hb as ->.
  destruct (PrimFloat.is_infinity _); eauto.
Qed.

Lemma promoted_float op (a b : Host.Number) :
  (∃ f, Host.promoted op a b = Host.Done (Host.NFloat f))
  ∨ (∃ e, Host.promoted op a b = Host.Threw e).
Proof.
  unfold Host.promoted, Host.and_then.
  destruct (Host.to_float a) as [x|]; [|eauto].
  destruct (Host.to_float b) as [y|]; [|eauto].
  destruct (op x y); eauto.
Qed.

Lemma arithmetic_lookup (name : string) (op : Builtin) :
  name ∈ arithmetic_names → BUILTINS !! name = Some op →
  op = NumberNumberToNumber Host.add ∨ op = NumberNumberToNumber Host.sub
  ∨ op = NumberNumberToNumber Host.mul ∨ op = NumberNumberToNumber Host.truediv.
Proof.
  unfold arithmetic_names. rewrite !elem_of_cons, elem_of_nil.
  intros [->|[->|[->|[->|[]]]]].
  - rewrite lookup_add. intros [= <-]. tauto.
  - rewrite lookup_sub. intros [= <-]. tauto.
  - rewrite lookup_mul. intros [= <-]. tauto.
  - rewrite lookup_truediv. intros [= <-]. tauto.
Qed.

Lemma mixed_is_promoted (op : Builtin) :
  op = NumberNumberToNumber Host.add ∨ op = NumberNumberToNumber Host.sub
  ∨ op = NumberNumberToNumber Host.mul ∨ op = NumberNumberToNumber Host.truediv →
  ∃ fn native,
    op = NumberNumberToNumber fn
    ∧ (∀ a g, fn (Host.NInt a) (Host.NFloat g)
              = Host.promoted native (Host.NInt a) (Host.NFloat g))
    ∧ (∀ a g, fn (Host.NFloat g) (Host.NInt a)
              = Host.promoted native (Host.NFloat g) (Host.NInt a)).
Proof.
  intros [->|[->|[->| ->]]]; eexists _, _; split_and!; reflexivity.
Qed.

Lemma of_native_float (r : Host.Native Host.Number) :
  (∃ f, r = Host.Done (Host.NFloat f)) ∨ (∃ e, r = Host.Threw e) →
  (∃ f, of_native r = Return (VFloat f))
  ∨ (∃ e, of_native r = Raise (ArithmeticError e)).
Proof. intros [[f ->]|[e ->]]; cbn; eauto. Qed.



Lemma number_lookup (name : string) (op : Builtin) :
  name ∈ number_names → BUILTINS !! name = Some op →
  (name ≠ "/" ∧
   (op = NumberNumberToNumber Host.add ∨ op = NumberNumberToNumber Host.sub
    ∨ op = NumberNumberToNumber Host.mul
    ∨ op = NumberNumberToBool Host.eq ∨ op = NumberNumberToBool Host.lt
    ∨ op = NumberNumberToBool Host.gt ∨ op = NumberNumberToBool Host.le
    ∨ op = NumberNumberToBool Host.ge))
  ∨ (name = "/" ∧ op = NumberNumberToNumber Host.truediv).
Proof.
  unfold number_names. rewrite !elem_of_cons, elem_of_nil.
  intros [->|[->|[->|[->|[->|[->|[->|[->|[->|[]]]]]]]]]].
  - rewrite lookup_add. intros [= <-]. left. split; [discriminate | tauto].
  - rewrite lookup_sub. intros [= <-]. left. split; [discriminate | tauto].
  - rewrite lookup_mul. intros [= <-]. left. split; [discriminate | tauto].
  - rewrite lookup_truediv. intros [= <-]. by right.
  - rewrite lookup_eq. intros [= <-]. left. split; [discriminate | tauto].
  - rewrite lookup_lt. intros [= <-]. left. split; [discriminate | tauto].
  - rewrite lookup_gt. intros [= <-]. left. split; [discriminate | tauto].
  - rewrite lookup_le. intros [= <-]. left. split; [discriminate | tauto].
  - rewrite lookup_ge. intros [= <-]. left. split; [discriminate | tauto].
Qed.

Lemma boolean_call_returns (a b : bool) (op : Builtin) :
  op = NumberNumberToNumber Host.add ∨ op = NumberNumberToNumber Host.sub
  ∨ op = NumberNumberToNumber Host.mul
  ∨ op = NumberNumberToBool Host.eq ∨ op = NumberNumberToBool Host.lt
  ∨ op = NumberNumberToBool Host.gt ∨ op = NumberNumberToBool Host.le
  ∨ op = NumberNumberToBool Host.ge →
  ∃ v, _eval_call_builtin op [VBool a; VBool b] = Return v.
Proof.
  intros [->|[->|[->|[->|[->|[->|[->| ->]]]]]]]; destruct a, b; eexists;
    vm_compute; reflexivity.
Qed.

Lemma boolean_division (a b : bool) :
  _eval_call_builtin (NumberNumberToNumber Host.truediv) [VBool a; VBool b]
  = if b then Return (VFloat (if a then 1 else 0)%float)
    else Raise (ArithmeticError Host.ZeroDivisionError).
Proof. destruct a, b; vm_compute; reflexivity. Qed.


End arithmetic.

(** * Further properties of the evaluator *)

Lemma outcome_bind {A B} (m : Run A) (k : A → Run B) :
  outcome (m ≫= k)
  = match outcome m with
    | Return a => outcome (k a)
    | Raise e => Raise e
    | Exhausted => Exhausted
    end.
Proof. unfold mbind, Run_bind, outcome. by destruct (m.2). Qed.

Lemma eval_symbol_bound (fuel : nat) (name : string) (env0 : Frame) (v : Value) :
  name ≠ Keyword.TRUE → name ≠ Keyword.FALSE → get env0 name = Some v →
  _eval_expr (S fuel) (SymbolLiteral name) env0 = ([SymbolLiteral name], Return v).
Proof.
  intros Ht Hf Hv. cbn [_eval_expr enter].
  by rewrite (eval_symbol_other _ _ Ht Hf), Hv.
Qed.

(** ** The base environment *)

Lemma builtins_dom (name : string) :
  is_Some (BUILTINS !! name) ↔ name ∈ builtin_names.
Proof.
  rewrite <- elem_of_dom. unfold BUILTINS. rewrite dom_list_to_map_L.
  rewrite elem_of_list_to_set. reflexivity.
Qed.

(** X1. [eval] resolves a symbol that is not a keyword in the registry alone:
    it returns the builtin registered under the name, and fails with
    "Undefined identifier" for every other name; the registered names are the
    thirteen operators. *)
Theorem eval_symbol_registry (fuel : nat) (name : string) :
  name ≠ Keyword.TRUE → name ≠ Keyword.FALSE →
  outcome (eval (S fuel) (SymbolLiteral name))
  = match BUILTINS !! name with
    | Some b => Return (VBuiltin b)
    | None => Raise (RuntimeError [Text ("Undefined identifier: " +:+ name)])
    end
  ∧ ((∃ b, outcome (eval (S fuel) (SymbolLiteral name)) = Return (VBuiltin b))
     ↔ name ∈ builtin_names).
Proof.
  intros Ht Hf.
  assert (Hrun : outcome (eval (S fuel) (SymbolLiteral name))
                 = match BUILTINS !! name with
                   | Some b => Return (VBuiltin b)
                   | None => Raise (RuntimeError [Text ("Undefined identifier: " +:+ name)])
                   end).
  { unfold eval. cbn [_eval_expr enter outcome snd].
    rewrite (eval_symbol_other _ _ Ht Hf), base_env_get.
    by destruct (BUILTINS !! name). }
  split; [exact Hrun|]. rewrite Hrun, <- builtins_dom.
  destruct (BUILTINS !! name) as [b|]; split.
  - by eexists.
  - by eexists.
  - by intros [b ?].
  - by intros [b ?].
Qed.

Lemma eval_symbol_registry_witness :
  "<=" ≠ Keyword.TRUE ∧ "<=" ≠ Keyword.FALSE
  ∧ outcome (eval 1 (SymbolLiteral "<=")) = Return (VBuiltin (NumberNumberToBool Host.le)).
Proof.
  assert (Ht : "<=" ≠ Keyword.TRUE) by discriminate.
  assert (Hf : "<=" ≠ Keyword.FALSE) by discriminate.
  split; [exact Ht|]. split; [exact Hf|].
  destruct (eval_symbol_registry 0 "<=" Ht Hf) as [Hrun _].
  rewrite Hrun. reflexivity.
Defined.

(** ** Conditionals: unpaired entries, failing conditions, truth values *)

Lemma zip_surplus_l {A B} (cs xs : list A) (ks : list B) :
  length cs = length ks → zip (cs ++ xs) ks = zip cs ks.
Proof.
  revert ks. induction cs as [|c cs IH]; intros [|k ks] Hlen; try discriminate.
  - by destruct xs.
  - cbn. f_equal. apply IH. by injection Hlen.
Qed.

Lemma zip_surplus_r {A B} (cs : list A) (ks ys : list B) :
  length cs = length ks → zip cs (ks ++ ys) = zip cs ks.
Proof.
  revert ks. induction cs as [|c cs IH]; intros [|k ks] Hlen; try discriminate.
  - reflexivity.
  - cbn. f_equal. apply IH. by injection Hlen.
Qed.

(** X2. [_eval_if] pairs the conditions with the consequents by [zip]:
    conditions beyond the last consequent and consequents beyond the last
    condition are never evaluated and change nothing but the node itself. *)
Theorem if_ignores_unpaired (fuel : nat) (cs ks xs ys : list Expr) (alt : Expr)
    (env0 : Frame) :
  length cs = length ks →
  let run := _eval_expr (S fuel) (IfExpr cs ks alt) env0 in
  _eval_expr (S fuel) (IfExpr (cs ++ xs) ks alt) env0
  = (IfExpr (cs ++ xs) ks alt :: tail (entered run), outcome run)
  ∧ _eval_expr (S fuel) (IfExpr cs (ks ++ ys) alt) env0
    = (IfExpr cs (ks ++ ys) alt :: tail (entered run), outcome run).
Proof.
  intros Hlen run. subst run. cbn [_eval_expr enter]. unfold _eval_if.
  by rewrite (zip_surplus_l cs xs ks Hlen), (zip_surplus_r cs ks ys Hlen).
Qed.

Lemma if_ignores_unpaired_witness :
  let F := SymbolLiteral Keyword.FALSE in
  let undefined := SymbolLiteral "nowhere" in
  length [F] = length [IntLiteral 1]
  ∧ eval 2 (IfExpr [F; undefined] [IntLiteral 1] (IntLiteral 2))
    = ([IfExpr [F; undefined] [IntLiteral 1] (IntLiteral 2); F; IntLiteral 2],
       Return (VInt 2)).
Proof.
  intros F undefined.
  assert (Hlen : length [F] = length [IntLiteral 1]) by reflexivity.
  split; [exact Hlen|].
  destruct (if_ignores_unpaired 1 [F] [IntLiteral 1] [undefined] []
              (IntLiteral 2) base_env Hlen) as [Hrun _].
  exact Hrun.
Defined.

Section failing_condition.

Variable ev : Expr → Frame → Run Value.

Lemma eval_if_condition_raises (cs ks : list Expr) (alt : Expr) (env0 : Frame)
    (i : nat) (c k : Expr) (e : Exception) :
  cs !! i = Some c → ks !! i = Some k →
  forallb (λ c', returns_falsy (ev c' env0)) (take i cs) = true →
  outcome (ev c env0) = Raise e →
  _eval_if ev cs ks alt env0 = (entered_all ev (take (S i) cs) env0, Raise e).
Proof.
  unfold _eval_if. revert ks i.
  induction cs as [|c0 cs IH]; intros [|k0 ks] [|i] Hc Hk Hpre He;
    try discriminate; cbn in Hc, Hk.
  - injection Hc as ->. cbn [zip zip_with _eval_if_loop].
    rewrite (bind_Raise _ _ _ He).
    cbn [take entered_all flat_map]. by rewrite app_nil_r.
  - cbn [take forallb] in Hpre. apply andb_true_iff in Hpre as [H0 Hpre].
    apply returns_falsy_inv in H0 as (v & Hv & Hf).
    cbn [zip zip_with _eval_if_loop]. rewrite (bind_Return _ _ _ Hv), Hf.
    rewrite (IH ks i Hc Hk Hpre He).
    change (take (S (S i)) (c0 :: cs)) with (c0 :: take (S i) cs).
    by rewrite entered_all_cons.
Qed.

End failing_condition.

(** X3. When the conditions before a paired condition are false and that
    condition raises, the [if] raises the same failure, and neither a
    consequent, nor a later condition, nor the alternative is evaluated. *)
Theorem if_condition_failure (fuel : nat) (cs ks : list Expr) (alt : Expr)
    (env0 : Frame) (i : nat) (c k : Expr) (e : Exception) :
  cs !! i = Some c → ks !! i = Some k →
  forallb (λ c', returns_falsy (_eval_expr fuel c' env0)) (take i cs) = true →
  outcome (_eval_expr fuel c env0) = Raise e →
  _eval_expr (S fuel) (IfExpr cs ks alt) env0
  = (IfExpr cs ks alt :: entered_all (_eval_expr fuel) (take (S i) cs) env0,
     Raise e).
Proof.
  intros Hc Hk Hpre He. cbn [_eval_expr enter].
  by rewrite (eval_if_condition_raises _ cs ks alt env0 i c k e).
Qed.

Lemma if_condition_failure_witness :
  let F := SymbolLiteral Keyword.FALSE in
  let undefined := SymbolLiteral "nowhere" in
  let node := IfExpr [F; undefined; F] [IntLiteral 1; IntLiteral 2; IntLiteral 3]
                (IntLiteral 4) in
  outcome (_eval_expr 1 undefined base_env)
  = Raise (RuntimeError [Text "Undefined identifier: nowhere"])
  ∧ eval 2 node
    = ([node; F; undefined], Raise (RuntimeError [Text "Undefined identifier: nowhere"])).
Proof.
  intros F undefined node.
  assert (He : outcome (_eval_expr 1 undefined base_env)
               = Raise (RuntimeError [Text "Undefined identifier: nowhere"]))
    by (vm_compute; reflexivity).
  split; [exact He|].
  exact (if_condition_failure 1 [F; undefined; F]
           [IntLiteral 1; IntLiteral 2; IntLiteral 3] (IntLiteral 4) base_env
           1 undefined (IntLiteral 2) _ eq_refl eq_refl eq_refl He).
Defined.

Lemma truthy_falsy (v : Value) : truthy v = false ↔ falsy v.
Proof.
  unfold falsy. destruct v as [z|f|b|s|b|c]; cbn [truthy]; split.
  - intros H%negb_false_iff%Z.eqb_eq. subst. by left.
  - intros [[= ->]|[?|[?|(f & ? & _)]]]; done.
  - intros H%negb_false_iff. right. right. right. by exists f.
  - intros [?|[?|[?|(g & [= <-] & ->)]]]; done.
  - intros ->. right. by left.
  - intros [?|[[= ->]|[?|(f & ? & _)]]]; done.
  - intros H%negb_false_iff%String.eqb_eq. subst. right. right. by left.
  - intros [?|[?|[[= ->]|(f & ? & _)]]]; done.
  - done.
  - intros [?|[?|[?|(f & ? & _)]]]; done.
  - done.
  - intros [?|[?|[?|(f & ? & _)]]]; done.
Qed.

(** X4. A condition need not be a boolean: the [if] takes the consequent for
    every value of the condition except the integer 0, a float equal to zero,
    the empty string and the boolean false, for which it goes on to the
    alternative. Builtins and closures count as true. *)
Theorem if_condition_truth_value (fuel : nat) (c k alt : Expr) (env0 : Frame)
    (v : Value) :
  outcome (_eval_expr fuel c env0) = Return v →
  (falsy v →
     outcome (_eval_expr (S fuel) (IfExpr [c] [k] alt) env0)
     = outcome (_eval_expr fuel alt env0))
  ∧ (¬ falsy v →
       outcome (_eval_expr (S fuel) (IfExpr [c] [k] alt) env0)
       = outcome (_eval_expr fuel k env0))
  ∧ (∀ b, ¬ falsy (VBuiltin b)) ∧ (∀ cl, ¬ falsy (VClosure cl)).
Proof.
  intros Hv.
  assert (Hrun : outcome (_eval_expr (S fuel) (IfExpr [c] [k] alt) env0)
                 = if truthy v then outcome (_eval_expr fuel k env0)
                   else outcome (_eval_expr fuel alt env0)).
  { cbn [_eval_expr enter outcome snd]. unfold _eval_if.
    cbn [zip zip_with _eval_if_loop]. rewrite (bind_Return _ _ _ Hv).
    by destruct (truthy v). }
  split_and!.
  - intros Hf%truthy_falsy. by rewrite Hrun, Hf.
  - intros Hf. rewrite Hrun. destruct (truthy v) eqn:Ht; [done|].
    by apply truthy_falsy in Ht.
  - intros b Hf%truthy_falsy. discriminate Hf.
  - intros cl Hf%truthy_falsy. discriminate Hf.
Qed.

Lemma if_condition_truth_value_witness :
  outcome (_eval_expr 1 (StringLiteral "") base_env) = Return (VStr "")
  ∧ outcome (eval 2 (IfExpr [StringLiteral ""] [IntLiteral 1] (IntLiteral 2)))
    = Return (VInt 2).
Proof.
  assert (Hv : outcome (_eval_expr 1 (StringLiteral "") base_env) = Return (VStr ""))
    by reflexivity.
  split; [exact Hv|].
  destruct (if_condition_truth_value 1 (StringLiteral "") (IntLiteral 1)
              (IntLiteral 2) base_env (VStr "") Hv) as [Hfalse _].
  unfold eval. rewrite Hfalse; [reflexivity|].
  right. right. by left.
Defined.

(** ** Calls: outcomes *)

Lemma eval_call_builtin_run (fuel : nat) (op : Expr) (args : list Expr)
    (env0 : Frame) (b : Builtin) (vs : list Value) :
  outcome (_eval_expr fuel op env0) = Return (VBuiltin b) →
  Forall2 (λ a v, outcome (_eval_expr fuel a env0) = Return v) args vs →
  outcome (_eval_expr (S fuel) (CallExpr op args) env0) = _eval_call_builtin b vs.
Proof.
  intros Hf Hvs. cbn [_eval_expr enter outcome snd]. unfold _eval_call.
  by rewrite (bind_Return _ _ _ Hf), (eval_args_all _ args vs env0 Hvs).
Qed.

Lemma eval_call_closure_run (fuel : nat) (op : Expr) (args : list Expr)
    (env0 : Frame) (c : Closure) (vs : list Value) :
  outcome (_eval_expr fuel op env0) = Return (VClosure c) →
  Forall2 (λ a v, outcome (_eval_expr fuel a env0) = Return v) args vs →
  outcome (_eval_expr (S fuel) (CallExpr op args) env0)
  = outcome (_eval_call_closure (_eval_expr fuel) c vs).
Proof.
  intros Hf Hvs. cbn [_eval_expr enter outcome snd]. unfold _eval_call.
  by rewrite (bind_Return _ _ _ Hf), (eval_args_all _ args vs env0 Hvs).
Qed.

Lemma eval_call_argument_raises (fuel : nat) (op : Expr) (args : list Expr)
    (env0 : Frame) (f : Value) (i : nat) (a : Expr) (e : Exception) :
  outcome (_eval_expr fuel op env0) = Return f →
  args !! i = Some a →
  forallb (λ a', returns (_eval_expr fuel a' env0)) (take i args) = true →
  outcome (_eval_expr fuel a env0) = Raise e →
  outcome (_eval_expr (S fuel) (CallExpr op args) env0) = Raise e.
Proof.
  intros Hf Ha Hpre He. cbn [_eval_expr enter outcome snd]. unfold _eval_call.
  by rewrite (bind_Return _ _ _ Hf), (eval_args_stop _ args env0 i a e Ha Hpre He).
Qed.

Lemma lookup_and : BUILTINS !! "and" = Some (BoolBoolToBool (λ a b, a && b)).
Proof. reflexivity. Qed.

Lemma lookup_or : BUILTINS !! "or" = Some (BoolBoolToBool (λ a b, a || b)).
Proof. reflexivity. Qed.

Lemma eval_builtin_symbol (fuel : nat) (name : string) (b : Builtin) :
  name ≠ Keyword.TRUE → name ≠ Keyword.FALSE → BUILTINS !! name = Some b →
  outcome (_eval_expr (S fuel) (SymbolLiteral name) base_env) = Return (VBuiltin b).
Proof.
  intros Ht Hf Hb. rewrite (eval_symbol_bound fuel name base_env (VBuiltin b)); try done.
  by rewrite base_env_get, Hb.
Qed.

(** X5. The builtins [and] and [or] do not short-circuit: the second argument
    is always evaluated. When it raises, the call raises that failure
    whatever the first argument is; when it has a value, both values must be
    booleans, or the call fails with "Expected 2 boolean arguments". *)
Theorem boolean_operators_are_strict (fuel : nat) (a b : Expr) (va : Value) :
  outcome (_eval_expr fuel a base_env) = Return va →
  (∀ e, outcome (_eval_expr fuel b base_env) = Raise e →
        outcome (eval (S fuel) (CallExpr (SymbolLiteral "and") [a; b])) = Raise e
        ∧ outcome (eval (S fuel) (CallExpr (SymbolLiteral "or") [a; b])) = Raise e)
  ∧ (∀ vb, outcome (_eval_expr fuel b base_env) = Return vb →
           outcome (eval (S fuel) (CallExpr (SymbolLiteral "and") [a; b]))
           = match va, vb with
             | VBool x, VBool y => Return (VBool (x && y))
             | _, _ => Raise (RuntimeError [Text "Expected 2 boolean arguments"])
             end
           ∧ outcome (eval (S fuel) (CallExpr (SymbolLiteral "or") [a; b]))
             = match va, vb with
               | VBool x, VBool y => Return (VBool (x || y))
               | _, _ => Raise (RuntimeError [Text "Expected 2 boolean arguments"])
               end).
Proof.
  intros Ha. destruct fuel as [|fuel]; [discriminate Ha|].
  assert (Hand := eval_builtin_symbol fuel "and" _ ltac:(discriminate)
                    ltac:(discriminate) lookup_and).
  assert (Hor := eval_builtin_symbol fuel "or" _ ltac:(discriminate)
                   ltac:(discriminate) lookup_or).
  assert (Hfirst : forallb (λ a', returns (_eval_expr (S fuel) a' base_env))
                     (take 1 [a; b]) = true).
  { cbn [take forallb]. unfold returns. unfold outcome in Ha. by rewrite Ha. }
  split.
  - intros e He. unfold eval. split.
    + exact (eval_call_argument_raises _ _ [a; b] _ _ 1 b e Hand eq_refl Hfirst He).
    + exact (eval_call_argument_raises _ _ [a; b] _ _ 1 b e Hor eq_refl Hfirst He).
  - intros vb Hb. unfold eval.
    assert (Hvs : Forall2 (λ x v, outcome (_eval_expr (S fuel) x base_env) = Return v)
                    [a; b] [va; vb]) by (repeat constructor; done).
    rewrite (eval_call_builtin_run _ _ _ _ _ _ Hand Hvs).
    rewrite (eval_call_builtin_run _ _ _ _ _ _ Hor Hvs).
    by destruct va, vb.
Qed.

Lemma boolean_operators_are_strict_witness :
  let undefined := SymbolLiteral "nowhere" in
  outcome (_eval_expr 1 (SymbolLiteral Keyword.FALSE) base_env) = Return (VBool false)
  ∧ outcome (eval 2 (CallExpr (SymbolLiteral "and")
                       [SymbolLiteral Keyword.FALSE; undefined]))
    = Raise (RuntimeError [Text "Undefined identifier: nowhere"]).
Proof.
  intros undefined.
  assert (Ha : outcome (_eval_expr 1 (SymbolLiteral Keyword.FALSE) base_env)
               = Return (VBool false)) by reflexivity.
  split; [exact Ha|].
  destruct (boolean_operators_are_strict 1 (SymbolLiteral Keyword.FALSE) undefined
              (VBool false) Ha) as [Hraise _].
  apply Hraise. vm_compute. reflexivity.
Defined.

(** X6. The comparison builtins decide the order of the integers exactly, for
    integers of any size. *)
Theorem integer_comparisons (a b : Z) :
  outcome (eval 2 (CallExpr (SymbolLiteral "=") [IntLiteral a; IntLiteral b]))
  = Return (VBool (a =? b))
  ∧ outcome (eval 2 (CallExpr (SymbolLiteral "<") [IntLiteral a; IntLiteral b]))
    = Return (VBool (a <? b))
  ∧ outcome (eval 2 (CallExpr (SymbolLiteral ">") [IntLiteral a; IntLiteral b]))
    = Return (VBool (b <? a))
  ∧ outcome (eval 2 (CallExpr (SymbolLiteral "<=") [IntLiteral a; IntLiteral b]))
    = Return (VBool (a <=? b))
  ∧ outcome (eval 2 (CallExpr (SymbolLiteral ">=") [IntLiteral a; IntLiteral b]))
    = Return (VBool (b <=? a)).
Proof.
  assert (Hvs : Forall2 (λ x v, outcome (_eval_expr 1 x base_env) = Return v)
                  [IntLiteral a; IntLiteral b] [VInt a; VInt b])
    by (repeat constructor).
  unfold eval.
  rewrite (eval_call_builtin_run 1 _ _ _ _ _
             (eval_builtin_symbol 0 "=" _ ltac:(discriminate) ltac:(discriminate) lookup_eq) Hvs).
  rewrite (eval_call_builtin_run 1 _ _ _ _ _
             (eval_builtin_symbol 0 "<" _ ltac:(discriminate) ltac:(discriminate) lookup_lt) Hvs).
  rewrite (eval_call_builtin_run 1 _ _ _ _ _
             (eval_builtin_symbol 0 ">" _ ltac:(discriminate) ltac:(discriminate) lookup_gt) Hvs).
  rewrite (eval_call_builtin_run 1 _ _ _ _ _
             (eval_builtin_symbol 0 "<=" _ ltac:(discriminate) ltac:(discriminate) lookup_le) Hvs).
  rewrite (eval_call_builtin_run 1 _ _ _ _ _
             (eval_builtin_symbol 0 ">=" _ ltac:(discriminate) ltac:(discriminate) lookup_ge) Hvs).
  rewrite !(builtin_compare_call _ _ _ (Host.NInt a) (Host.NInt b)) by reflexivity.
  unfold Host.eq, Host.lt, Host.gt, Host.le, Host.ge, Host.compare.
  unfold Z.ltb, Z.leb. rewrite (Z.compare_antisym a b).
  destruct (Z.compare_spec a b) as [->|Hlt|Hgt]; cbn [CompOpp];
    rewrite ?Z.eqb_refl; try done.
  - by replace (a =? b) with false by (symmetry; apply Z.eqb_neq; lia).
  - by replace (a =? b) with false by (symmetry; apply Z.eqb_neq; lia).
Qed.

(** ** Parameters *)

Lemma last_occurrence (ps : list string) (name : string) :
  name ∈ ps → ∃ i, ps !! i = Some name ∧ name ∉ drop (S i) ps.
Proof.
  induction ps as [|p ps IH]; intros Hin; [by apply elem_of_nil in Hin|].
  destruct (decide (name ∈ ps)) as [Hlater|Hlast].
  - destruct (IH Hlater) as (i & Hi & Hnot). by exists (S i).
  - apply elem_of_cons in Hin as [->|Hin]; [|done]. by exists 0%nat.
Qed.



(** ** Recursion depth *)

Section deeper.

Variables ev1 ev2 : Expr → Frame → Run Value.

Hypothesis deeper :
  ∀ e env0, outcome (ev1 e env0) ≠ Exhausted → ev2 e env0 = ev1 e env0.

Lemma bind_deeper {A} (e : Expr) (env0 : Frame) (k1 k2 : Value → Run A) :
  (∀ v, outcome (ev1 e env0) = Return v → outcome (k1 v) ≠ Exhausted → k2 v = k1 v) →
  outcome (ev1 e env0 ≫= k1) ≠ Exhausted →
  ev2 e env0 ≫= k2 = ev1 e env0 ≫= k1.
Proof.
  intros Hk Hrun. rewrite outcome_bind in Hrun.
  destruct (outcome (ev1 e env0)) as [v| |] eqn:Hv; [| |done].
  - rewrite deeper by (rewrite Hv; done).
    rewrite !(bind_Return _ _ _ Hv). by rewrite (Hk v).
  - rewrite deeper by (rewrite Hv; done).
    by rewrite !(bind_Raise _ _ _ Hv).
Qed.

Lemma eval_if_loop_deeper (pairs : list (Expr * Expr)) (alt : Expr) (env0 : Frame) :
  outcome (_eval_if_loop ev1 pairs alt env0) ≠ Exhausted →
  _eval_if_loop ev2 pairs alt env0 = _eval_if_loop ev1 pairs alt env0.
Proof.
  induction pairs as [|[c k] rest IH]; cbn [_eval_if_loop]; [apply deeper|].
  apply bind_deeper. intros v _. destruct (truthy v); [apply deeper | apply IH].
Qed.

Lemma eval_args_deeper (args : list Expr) (env0 : Frame) :
  outcome (eval_args ev1 args env0) ≠ Exhausted →
  eval_args ev2 args env0 = eval_args ev1 args env0.
Proof.
  induction args as [|a rest IH]; cbn [eval_args]; [done|].
  apply bind_deeper. intros v _ Hrest. rewrite outcome_bind in Hrest.
  rewrite IH; [done|]. intros Hex. by rewrite Hex in Hrest.
Qed.

Lemma eval_call_closure_deeper (c : Closure) (vs : list Value) :
  outcome (_eval_call_closure ev1 c vs) ≠ Exhausted →
  _eval_call_closure ev2 c vs = _eval_call_closure ev1 c vs.
Proof.
  unfold _eval_call_closure.
  destruct (negb (length vs =? length (params c))%nat); [done | apply deeper].
Qed.

Lemma eval_call_deeper (op : Expr) (args : list Expr) (env0 : Frame) :
  outcome (_eval_call ev1 op args env0) ≠ Exhausted →
  _eval_call ev2 op args env0 = _eval_call ev1 op args env0.
Proof.
  unfold _eval_call. apply bind_deeper. intros f _ Hrest.
  rewrite outcome_bind in Hrest.
  rewrite eval_args_deeper by (intros Hex; by rewrite Hex in Hrest).
  destruct (outcome (eval_args ev1 args env0)) as [vs| |] eqn:Hvs; [| |done].
  - rewrite !(bind_Return _ _ _ Hvs).
    destruct f; try done. by rewrite eval_call_closure_deeper.
  - by rewrite !(bind_Raise _ _ _ Hvs).
Qed.

End deeper.

(** X8. The recursion depth that is available does not change a result: an
    evaluation that returns or raises within some depth does exactly the same,
    with the same nodes entered in the same order, at every larger depth. *)
Theorem deeper_recursion_same_run (fuel fuel' : nat) (e : Expr) (env0 : Frame) :
  (fuel ≤ fuel')%nat →
  outcome (_eval_expr fuel e env0) ≠ Exhausted →
  _eval_expr fuel' e env0 = _eval_expr fuel e env0.
Proof.
  revert fuel' e env0.
  induction fuel as [|fuel IH]; intros fuel' e env0 Hle Hrun; [done|].
  destruct fuel' as [|fuel']; [lia|].
  assert (Hdeeper : ∀ e' env', outcome (_eval_expr fuel e' env') ≠ Exhausted →
                               _eval_expr fuel' e' env' = _eval_expr fuel e' env').
  { intros e' env'. apply IH. lia. }
  destruct e; cbn [_eval_expr enter outcome snd] in Hrun |- *; try done.
  - unfold _eval_if in *.
    rewrite (eval_if_loop_deeper _ _ Hdeeper); [done | exact Hrun].
  - rewrite (eval_call_deeper _ _ Hdeeper); [done | exact Hrun].
Qed.

Lemma deeper_recursion_same_run_witness :
  let program := CallExpr (LambdaExpr ["x"] (SymbolLiteral "x")) [IntLiteral 3] in
  (3 ≤ 50)%nat
  ∧ outcome (_eval_expr 3 program base_env) ≠ Exhausted
  ∧ outcome (_eval_expr 50 program base_env) = Return (VInt 3).
Proof.
  intros program.
  assert (Hle : (3 ≤ 50)%nat) by lia.
  assert (Hrun : outcome (_eval_expr 3 program base_env) ≠ Exhausted)
    by (vm_compute; discriminate).
  split; [exact Hle|]. split; [exact Hrun|].
  rewrite (deeper_recursion_same_run 3 50 program base_env Hle Hrun).
  vm_compute. reflexivity.
Defined.

(** ** Recursion by self-application *)

Lemma eval_if_single (fuel : nat) (c k alt : Expr) (env0 : Frame) (v : Value) :
  outcome (_eval_expr fuel c env0) = Return v →
  outcome (_eval_expr (S fuel) (IfExpr [c] [k] alt) env0)
  = if truthy v then outcome (_eval_expr fuel k env0)
    else outcome (_eval_expr fuel alt env0).
Proof.
  intros Hv. cbn [_eval_expr enter outcome snd]. unfold _eval_if.
  cbn [zip zip_with _eval_if_loop]. rewrite (bind_Return _ _ _ Hv).
  by destruct (truthy v).
Qed.

Lemma factorial_frame_n (n : Z) : get (factorial_frame n) "n" = Some (VInt n).
Proof.
  unfold factorial_frame. cbn [get].
  rewrite (call_bindings_lookup _ _ 1 "n" (VInt n)); try reflexivity.
  cbn. apply not_elem_of_nil.
Qed.

Lemma factorial_frame_self (n : Z) :
  get (factorial_frame n) "self" = Some (VClosure factorial_closure).
Proof.
  unfold factorial_frame. cbn [get].
  rewrite (call_bindings_lookup _ _ 0 "self" (VClosure factorial_closure));
    try reflexivity.
  cbn. by intros [=]%list_elem_of_singleton.
Qed.

Lemma factorial_frame_builtin (n : Z) (name : string) (b : Builtin) :
  name ∉ ["self"; "n"] → BUILTINS !! name = Some b →
  get (factorial_frame n) name = Some (VBuiltin b).
Proof.
  intros Hname Hb. unfold factorial_frame. cbn [get].
  rewrite (call_bindings_notin _ _ _ Hname).
  change (get base_env name = Some (VBuiltin b)).
  by rewrite base_env_get, Hb.
Qed.

Ltac not_a_parameter :=
  let H := fresh in
  intros H; repeat (apply elem_of_cons in H as [H|H]; [discriminate H|]);
  by apply elem_of_nil in H.

Lemma factorial_condition (fuel : nat) (n : Z) :
  outcome (_eval_expr (S (S fuel))
             (CallExpr (SymbolLiteral "=") [SymbolLiteral "n"; IntLiteral 0])
             (factorial_frame n))
  = Return (VBool (n =? 0)).
Proof.
  rewrite (eval_call_builtin_run _ _ _ _ (NumberNumberToBool Host.eq) [VInt n; VInt 0]).
  - rewrite (builtin_compare_call _ _ _ (Host.NInt n) (Host.NInt 0)) by reflexivity.
    unfold Host.eq, Host.compare.
    destruct (Z.compare_spec n 0) as [->|Hlt|Hgt]; [done| |];
      by replace (n =? 0) with false by (symmetry; apply Z.eqb_neq; lia).
  - by rewrite (eval_symbol_bound _ _ _ (VBuiltin (NumberNumberToBool Host.eq)))
      by first [done | apply factorial_frame_builtin; [not_a_parameter | apply lookup_eq]].
  - repeat constructor.
Qed.

Lemma factorial_predecessor (fuel : nat) (n : Z) :
  outcome (_eval_expr (S (S fuel))
             (CallExpr (SymbolLiteral "-") [SymbolLiteral "n"; IntLiteral 1])
             (factorial_frame n))
  = Return (VInt (n - 1)).
Proof.
  rewrite (eval_call_builtin_run _ _ _ _ (NumberNumberToNumber Host.sub) [VInt n; VInt 1]).
  - by rewrite (builtin_number_call _ _ _ (Host.NInt n) (Host.NInt 1)).
  - by rewrite (eval_symbol_bound _ _ _ (VBuiltin (NumberNumberToNumber Host.sub)))
      by first [done | apply factorial_frame_builtin; [not_a_parameter | apply lookup_sub]].
  - repeat constructor.
Qed.

Lemma factorial_body_run (k : nat) :
  ∀ fuel, (3 * k + 3 ≤ fuel)%nat →
    outcome (_eval_expr fuel factorial_body (factorial_frame (Z.of_nat k)))
    = Return (VInt (factorial_value k)).
Proof.
  induction k as [|k IH]; intros fuel Hfuel.
  - destruct fuel as [|[|[|fuel]]]; try lia.
    unfold factorial_body.
    rewrite (eval_if_single _ _ _ _ _ _ (factorial_condition fuel 0)).
    reflexivity.
  - destruct fuel as [|[|[|[|[|[|fuel]]]]]]; try lia.
    unfold factorial_body.
    rewrite (eval_if_single _ _ _ _ _ _ (factorial_condition _ (Z.of_nat (S k)))).
    replace (Z.of_nat (S k) =? 0) with false by (symmetry; apply Z.eqb_neq; lia).
    cbn [truthy].
    rewrite (eval_call_builtin_run _ _ _ _ (NumberNumberToNumber Host.mul)
               [VInt (Z.of_nat (S k)); VInt (factorial_value k)]).
    + by rewrite (builtin_number_call _ _ _ (Host.NInt (Z.of_nat (S k)))
                    (Host.NInt (factorial_value k))).
    + by rewrite (eval_symbol_bound _ _ _ (VBuiltin (NumberNumberToNumber Host.mul)))
      by first [done | apply factorial_frame_builtin; [not_a_parameter | apply lookup_mul]].
    + constructor; [|constructor; [|constructor]].
      * by rewrite (eval_symbol_bound _ _ _ (VInt (Z.of_nat (S k))))
          by (done || apply factorial_frame_n).
      * rewrite (eval_call_closure_run _ _ _ _ factorial_closure
                   [VClosure factorial_closure; VInt (Z.of_nat (S k) - 1)]).
        -- rewrite eval_call_closure_body by reflexivity.
           replace (Z.of_nat (S k) - 1) with (Z.of_nat k) by lia.
           apply IH. lia.
        -- by rewrite (eval_symbol_bound _ _ _ (VClosure factorial_closure))
             by (done || apply factorial_frame_self).
        -- constructor; [|constructor; [|constructor]].
           ++ by rewrite (eval_symbol_bound _ _ _ (VClosure factorial_closure))
                by (done || apply factorial_frame_self).
           ++ apply factorial_predecessor.
Qed.



Lemma bind_Exhausted {A B} (m : Run A) (k : A → Run B) :
  outcome m = Exhausted → outcome (m ≫= k) = Exhausted.
Proof. intros Hm. by rewrite outcome_bind, Hm. Qed.

Lemma eval_args_exhausted ev (args : list Expr) (env0 : Frame) (i : nat) (a : Expr) :
  args !! i = Some a →
  forallb (λ a', returns (ev a' env0)) (take i args) = true →
  outcome (ev a env0) = Exhausted →
  outcome (eval_args ev args env0) = Exhausted.
Proof.
  revert i. induction args as [|a0 args IH]; intros [|i] Ha Hpre He;
    try discriminate; cbn in Ha.
  - injection Ha as ->. cbn [eval_args]. by apply bind_Exhausted.
  - cbn [take forallb] in Hpre. apply andb_true_iff in Hpre as [H0 Hpre].
    apply returns_inv in H0 as [v Hv].
    cbn [eval_args]. rewrite outcome_bind, Hv.
    apply bind_Exhausted. by apply (IH i).
Qed.

Lemma eval_call_argument_exhausted (fuel : nat) (op : Expr) (args : list Expr)
    (env0 : Frame) (f : Value) (i : nat) (a : Expr) :
  outcome (_eval_expr fuel op env0) = Return f →
  args !! i = Some a →
  forallb (λ a', returns (_eval_expr fuel a' env0)) (take i args) = true →
  outcome (_eval_expr fuel a env0) = Exhausted →
  outcome (_eval_expr (S fuel) (CallExpr op args) env0) = Exhausted.
Proof.
  intros Hf Ha Hpre He.
  change (outcome (_eval_call (_eval_expr fuel) op args env0) = Exhausted).
  unfold _eval_call. rewrite outcome_bind, Hf. apply bind_Exhausted.
  by apply (eval_args_exhausted _ args env0 i a).
Qed.

Lemma factorial_recursive_call (fuel : nat) (n : Z) :
  outcome (_eval_expr (S (S (S fuel)))
             (CallExpr (SymbolLiteral "self")
                [SymbolLiteral "self";
                 CallExpr (SymbolLiteral "-") [SymbolLiteral "n"; IntLiteral 1]])
             (factorial_frame n))
  = outcome (_eval_expr (S (S fuel)) factorial_body (factorial_frame (n - 1))).
Proof.
  rewrite (eval_call_closure_run _ _ _ _ factorial_closure
             [VClosure factorial_closure; VInt (n - 1)]).
  - by rewrite eval_call_closure_body.
  - by rewrite (eval_symbol_bound _ _ _ (VClosure factorial_closure))
      by (done || apply factorial_frame_self).
  - constructor; [|constructor; [|constructor]].
    + by rewrite (eval_symbol_bound _ _ _ (VClosure factorial_closure))
        by (done || apply factorial_frame_self).
    + apply factorial_predecessor.
Qed.

Lemma factorial_body_diverges (fuel : nat) :
  ∀ n, n < 0 →
    outcome (_eval_expr fuel factorial_body (factorial_frame n)) = Exhausted.
Proof.
  induction fuel as [fuel IH] using lt_wf_ind. intros n Hn.
  destruct fuel as [|[|[|fuel]]]; try reflexivity.
  unfold factorial_body.
  rewrite (eval_if_single _ _ _ _ _ _ (factorial_condition fuel n)).
  replace (n =? 0) with false by (symmetry; apply Z.eqb_neq; lia).
  cbn [truthy].
  apply (eval_call_argument_exhausted _ _ _ _
           (VBuiltin (NumberNumberToNumber Host.mul)) 1
           (CallExpr (SymbolLiteral "self")
              [SymbolLiteral "self";
               CallExpr (SymbolLiteral "-") [SymbolLiteral "n"; IntLiteral 1]])).
  - by rewrite (eval_symbol_bound _ _ _ (VBuiltin (NumberNumberToNumber Host.mul)))
      by first [done | apply factorial_frame_builtin; [not_a_parameter | apply lookup_mul]].
  - reflexivity.
  - cbn [take forallb]. unfold returns.
    by rewrite (eval_symbol_bound _ _ _ (VInt n)) by (done || apply factorial_frame_n).
  - destruct fuel as [|[|fuel]]; try reflexivity.
    rewrite factorial_recursive_call. apply IH; lia.
Qed.

(** X10. The evaluator puts no bound of its own on recursion: on a negative
    integer the program [(factorial factorial n)] neither returns a value nor
    raises one of the evaluator's failures, at any recursion depth. *)
Theorem factorial_of_negative_diverges (n : Z) (fuel : nat) :
  n < 0 → outcome (eval fuel (factorial_of n)) = Exhausted.
Proof.
  intros Hn. destruct fuel as [|[|fuel]]; try reflexivity.
  unfold eval, factorial_of.
  rewrite (eval_call_closure_run _ _ _ _ factorial_closure
             [VClosure factorial_closure; VInt n]).
  - rewrite eval_call_closure_body by reflexivity.
    by apply factorial_body_diverges.
  - reflexivity.
  - repeat constructor.
Qed.

Lemma factorial_of_negative_diverges_witness :
  -1 < 0 ∧ outcome (eval 100 (factorial_of (-1))) = Exhausted.
Proof.
  assert (Hn : -1 < 0) by lia.
  split; [exact Hn|].
  exact (factorial_of_negative_diverges (-1) 100 Hn).
Defined.

(** ** Every frame stands on the base environment *)

Lemma get_rooted (f : Frame) (name : string) (v : Value) :
  rooted_frame f → get f name = Some v → rooted_value v.
Proof.
  induction 1 as [|bs up Hbs _ IH].
  - rewrite base_env_get. destruct (BUILTINS !! name); [|done].
    intros [= <-]. constructor.
  - cbn [get]. destruct (bs !! name) as [w|] eqn:Hw; [|exact IH].
    intros [= <-]. by apply (Hbs name).
Qed.

Lemma chain_rooted (f : Frame) :
  rooted_frame f → last (chain f) = Some (bindings base_env).
Proof.
  induction 1 as [|bs up _ Hup IH]; [reflexivity|].
  cbn [chain]. destruct up as [bs' p']. cbn [chain] in IH |- *. exact IH.
Qed.

Lemma get_rooted_registry (f : Frame) (name : string) :
  rooted_frame f → is_Some (BUILTINS !! name) → is_Some (get f name).
Proof.
  intros Hf [b Hb]. induction Hf as [|bs up _ _ IH].
  - rewrite base_env_get, Hb. by eexists.
  - cbn [get]. destruct (bs !! name); [by eexists | exact IH].
Qed.

Lemma foldl_store_rooted (l : list (string * Value)) (m : gmap string Value) :
  (∀ name v, m !! name = Some v → rooted_value v) →
  Forall (λ pa, rooted_value pa.2) l →
  ∀ name v, foldl store m l !! name = Some v → rooted_value v.
Proof.
  revert m. induction l as [|[k w] l IH]; intros m Hm Hl; [exact Hm|].
  apply Forall_cons in Hl as [Hw Hl]. cbn [foldl]. apply IH; [|exact Hl].
  intros name v. unfold store. cbn [fst snd].
  rewrite lookup_insert_Some. intros [[_ <-]|[_ Hv]]; [exact Hw | by apply (Hm name)].
Qed.

Lemma call_bindings_rooted (ps : list string) (vs : list Value) :
  Forall rooted_value vs →
  ∀ name v, call_bindings ps vs !! name = Some v → rooted_value v.
Proof.
  intros Hvs. apply foldl_store_rooted; [intros name v; by rewrite lookup_empty|].
  apply Forall_forall. intros [p w] Hin. cbn [snd].
  apply elem_of_zip_r in Hin. by apply (proj1 (Forall_forall _ _) Hvs).
Qed.

Lemma builtin_result_rooted (op : Builtin) (args : list Value) (v : Value) :
  _eval_call_builtin op args = Return v → rooted_value v.
Proof.
  destruct op; destruct args as [|a [|b [|c rest]]]; cbn [_eval_call_builtin];
    try discriminate;
    destruct a; try destruct b; cbn; try discriminate;
    try (intros [= <-]; constructor);
    match goal with
    | |- of_native ?r = _ → _ =>
        destruct r as [[z'|f']|e]; cbn; try discriminate; intros [= <-]; constructor
    end.
Qed.

Section rooted_runs.

Variable ev : Expr → Frame → Run Value.

Hypothesis ev_rooted :
  ∀ e env0 v, rooted_frame env0 → outcome (ev e env0) = Return v → rooted_value v.

Lemma eval_if_loop_rooted (pairs : list (Expr * Expr)) (alt : Expr) (env0 : Frame)
    (v : Value) :
  rooted_frame env0 →
  outcome (_eval_if_loop ev pairs alt env0) = Return v → rooted_value v.
Proof.
  intros Henv. induction pairs as [|[c k] rest IH]; cbn [_eval_if_loop].
  - by apply ev_rooted.
  - rewrite outcome_bind. destruct (outcome (ev c env0)) as [w| |]; try done.
    destruct (truthy w); [by apply ev_rooted | exact IH].
Qed.

Lemma eval_args_rooted (args : list Expr) (env0 : Frame) (vs : list Value) :
  rooted_frame env0 →
  outcome (eval_args ev args env0) = Return vs → Forall rooted_value vs.
Proof.
  intros Henv. revert vs. induction args as [|a rest IH]; intros vs; cbn [eval_args].
  - intros [= <-]. constructor.
  - rewrite outcome_bind. destruct (outcome (ev a env0)) as [w| |] eqn:Hw; try done.
    rewrite outcome_bind.
    destruct (outcome (eval_args ev rest env0)) as [ws| |]; try done.
    intros [= <-]. constructor; [by apply (ev_rooted a env0) | by apply IH].
Qed.

Lemma eval_call_closure_rooted (c : Closure) (vs : list Value) (v : Value) :
  rooted_value (VClosure c) → Forall rooted_value vs →
  outcome (_eval_call_closure ev c vs) = Return v → rooted_value v.
Proof.
  intros Hc Hvs. unfold _eval_call_closure.
  destruct (negb (length vs =? length (params c))%nat); [done|].
  apply ev_rooted. inversion Hc as [| | | | |ps b f Hf]; subst.
  constructor; [by apply call_bindings_rooted | exact Hf].
Qed.

Lemma eval_call_rooted (op : Expr) (args : list Expr) (env0 : Frame) (v : Value) :
  rooted_frame env0 →
  outcome (_eval_call ev op args env0) = Return v → rooted_value v.
Proof.
  intros Henv. unfold _eval_call. rewrite outcome_bind.
  destruct (outcome (ev op env0)) as [f| |] eqn:Hf; try done.
  rewrite outcome_bind.
  destruct (outcome (eval_args ev args env0)) as [vs| |] eqn:Hvs; try done.
  apply (ev_rooted op env0) in Hf; [|done].
  apply eval_args_rooted in Hvs; [|done].
  destruct f; try done.
  - apply builtin_result_rooted.
  - by apply eval_call_closure_rooted.
Qed.

End rooted_runs.

Lemma eval_expr_rooted (fuel : nat) :
  ∀ e env0 v, rooted_frame env0 →
    outcome (_eval_expr fuel e env0) = Return v → rooted_value v.
Proof.
  induction fuel as [|fuel IH]; intros e env0 v Henv; [done|].
  destruct e; cbn [_eval_expr enter outcome snd].
  - intros [= <-]. constructor.
  - intros [= <-]. constructor.
  - unfold _eval_symbol.
    destruct (String.eqb value Keyword.TRUE); [intros [= <-]; constructor|].
    destruct (String.eqb value Keyword.FALSE); [intros [= <-]; constructor|].
    destruct (get env0 value) as [w|] eqn:Hw; [|done].
    intros [= <-]. by apply (get_rooted env0 value).
  - intros [= <-]. constructor.
  - intros [= <-]. by constructor.
  - apply (eval_if_loop_rooted _ IH); done.
  - apply (eval_call_rooted _ IH); done.
Qed.

(** X11. Every frame that an evaluation builds stands on the base
    environment: the frame chain of a closure that [eval] returns ends with
    the registry, every value bound along it has the same property, and so
    every registered name resolves in the frame of the closure, either to a
    parameter that shadows it or to the builtin. *)
Theorem closures_stand_on_base_env (fuel : nat) (e : Expr) (c : Closure) :
  outcome (eval fuel e) = Return (VClosure c) →
  rooted_frame (env c)
  ∧ last (chain (env c)) = Some (VBuiltin <$> BUILTINS)
  ∧ (∀ name, name ∈ builtin_names → is_Some (get (env c) name))
  ∧ (∀ name v, get (env c) name = Some v → rooted_value v).
Proof.
  intros Hrun.
  assert (Hc : rooted_frame (env c)).
  { apply (eval_expr_rooted fuel e base_env) in Hrun; [|constructor].
    by inversion Hrun. }
  split_and!.
  - exact Hc.
  - by apply chain_rooted.
  - intros name Hname%builtins_dom. by apply get_rooted_registry.
  - intros name v. by apply get_rooted.
Qed.

Lemma closures_stand_on_base_env_witness :
  let make := LambdaExpr ["x"] (LambdaExpr ["y"] (SymbolLiteral "x")) in
  let c := mkClosure ["y"] (SymbolLiteral "x")
             (mkFrame {[ "x" := VInt 1 ]} (Some base_env)) in
  outcome (eval 3 (CallExpr make [IntLiteral 1])) = Return (VClosure c)
  ∧ last (chain (env c)) = Some (VBuiltin <$> BUILTINS).
Proof.
  intros make c.
  assert (Hrun : outcome (eval 3 (CallExpr make [IntLiteral 1])) = Return (VClosure c))
    by reflexivity.
  split; [exact Hrun|].
  destruct (closures_stand_on_base_env 3 _ c Hrun) as (_ & Hlast & _).
  exact Hlast.
Defined.

(** ** The failures of an evaluation *)

Lemma builtin_failure_known (op : Builtin) (args : list Value) (ex : Exception) :
  _eval_call_builtin op args = Raise ex → known_failure ex.
Proof.
  destruct op; destruct args as [|a [|b [|c rest]]]; cbn [_eval_call_builtin];
    try (intros [= <-]; left; by eexists);
    destruct a; try destruct b; cbn; try discriminate;
    try (intros [= <-]; left; by eexists);
    match goal with
    | |- of_native ?r = _ → _ =>
        destruct r as [[z'|f']|e]; cbn; try discriminate; intros [= <-];
        right; by eexists
    end.
Qed.

Section known_failures.

Variable ev : Expr → Frame → Run Value.

Hypothesis ev_known :
  ∀ e env0 ex, outcome (ev e env0) = Raise ex → known_failure ex.

Lemma eval_if_loop_known (pairs : list (Expr * Expr)) (alt : Expr) (env0 : Frame)
    (ex : Exception) :
  outcome (_eval_if_loop ev pairs alt env0) = Raise ex → known_failure ex.
Proof.
  induction pairs as [|[c k] rest IH]; cbn [_eval_if_loop].
  - apply ev_known.
  - rewrite outcome_bind. destruct (outcome (ev c env0)) as [w|e'|] eqn:Hc; try done.
    + destruct (truthy w); [apply ev_known | exact IH].
    + intros [= <-]. by apply (ev_known c env0).
Qed.

Lemma eval_args_known (args : list Expr) (env0 : Frame) (ex : Exception) :
  outcome (eval_args ev args env0) = Raise ex → known_failure ex.
Proof.
  induction args as [|a rest IH]; cbn [eval_args]; [done|].
  rewrite outcome_bind. destruct (outcome (ev a env0)) as [w|e'|] eqn:Ha; try done.
  - rewrite outcome_bind.
    destruct (outcome (eval_args ev rest env0)) as [ws|e'|]; done.
  - intros [= <-]. by apply (ev_known a env0).
Qed.

Lemma eval_call_closure_known (c : Closure) (vs : list Value) (ex : Exception) :
  outcome (_eval_call_closure ev c vs) = Raise ex → known_failure ex.
Proof.
  unfold _eval_call_closure.
  destruct (negb (length vs =? length (params c))%nat); [|apply ev_known].
  intros [= <-]. left. by eexists.
Qed.

Lemma eval_call_known (op : Expr) (args : list Expr) (env0 : Frame) (ex : Exception) :
  outcome (_eval_call ev op args env0) = Raise ex → known_failure ex.
Proof.
  unfold _eval_call. rewrite outcome_bind.
  destruct (outcome (ev op env0)) as [f|e'|] eqn:Hf; try done.
  - rewrite outcome_bind.
    destruct (outcome (eval_args ev args env0)) as [vs|e'|] eqn:Hvs; try done.
    + destruct f; try (intros [= <-]; left; by eexists).
      * apply builtin_failure_known.
      * apply eval_call_closure_known.
    + intros [= <-]. by apply (eval_args_known args env0).
  - intros [= <-]. by apply (ev_known op env0).
Qed.

End known_failures.


